(** * Lazy iterators of [lib/iterator.js]: a shallow embedding

    The JavaScript classes [Iterator], [MapIterator], [FilterIterator],
    [FlatIterator], [FlatMapIterator], [TakeIterator], [TakeWhileIterator],
    [ZipIterator] and [JoinIterator] are mutable cursors.  Every [next()]
    method becomes a function from the state of the object to the result it
    returns together with the state it leaves behind.  Loops and recursive
    self-calls whose termination depends on the upstream take a [fuel]
    argument; exceptions are an explicit [Throw] outcome. *)

From Stdlib Require Import ZArith Bool Lia.
From stdpp Require Import list.

Open Scope Z_scope.

(** ** JavaScript values *)

(** The values that flow through the iterators: [undefined], [null],
    booleans, integral numbers, [NaN], and array objects.  An array is an
    object, so it carries the reference [ref] that [===] compares. *)
#[warnings="-register-all"]
Inductive jsvalue : Type :=
| VUndefined
| VNull
| VBool (b : bool)
| VNum (n : Z)
| VNaN
| VArr (ref : nat) (items : list jsvalue).

(** [a === b]: primitives by value, [NaN] unequal to everything, objects by
    reference. *)
Definition strict_eq (a b : jsvalue) : bool :=
  match a, b with
  | VUndefined, VUndefined => true
  | VNull, VNull => true
  | VBool x, VBool y => Bool.eqb x y
  | VNum x, VNum y => Z.eqb x y
  | VArr r1 _, VArr r2 _ => Nat.eqb r1 r2
  | _, _ => false
  end.

(** The global [isNaN(v)]: [v] is first coerced with ToNumber.
    [undefined] coerces to [NaN]; [null] and booleans coerce to finite
    numbers.  An array coerces through its [join(",")] string: the empty
    array gives the empty string (0), a one-element array gives the string of
    its element ([undefined] and [null] print as the empty string, a boolean
    prints as a word that is not a numeral), and two or more elements give a
    string with a comma, which is not a numeral. *)
Fixpoint isNaN (v : jsvalue) : bool :=
  match v with
  | VUndefined => true
  | VNull => false
  | VBool _ => false
  | VNum _ => false
  | VNaN => true
  | VArr _ [] => false
  | VArr _ [x] =>
      match x with
      | VUndefined | VNull => false
      | VBool _ => true
      | _ => isNaN x
      end
  | VArr _ (_ :: _ :: _) => true
  end.

(** ** Outcomes of a call *)

Inductive error : Type :=
| NotIterable      (* TypeError('Base is not Iterable') *)
| NullishAccess    (* TypeError of the engine: property read on undefined or null *)
| ReduceNoInitial  (* TypeError('Reduce of consumed iterator with no initial value') *)
| InvalidArrayLength. (* RangeError of the engine: new Array(len) with a bad len *)

Inductive outcome (A : Type) : Type :=
| Ok (a : A)
| Throw (e : error)
| OutOfFuel.

Arguments Ok {A} a.
Arguments Throw {A} e.
Arguments OutOfFuel {A}.

Definition bind {A B : Type} (m : outcome A) (k : A -> outcome B) : outcome B :=
  match m with
  | Ok a => k a
  | Throw e => Throw e
  | OutOfFuel => OutOfFuel
  end.

Notation "'let*' x ':=' m 'in' k" := (bind m (fun x => k))
  (at level 10, x name, m at level 100, k at level 200).
Notation "'let*' ' p ':=' m 'in' k" := (bind m (fun x => match x with p => k end))
  (at level 10, p pattern, m at level 100, k at level 200).

(** ** The pull protocol *)

(** The object returned by [next()]. *)
Record iterResult : Type := IterResult { done : bool; value : jsvalue }.

Definition finished : iterResult := IterResult true VUndefined.

(** A cursor obtained from [base[Symbol.iterator]()].  Its behaviour is the
    result it gives at each successive call of [next()], and its state is the
    number of calls made so far.  Nothing forces a cursor to keep reporting
    exhaustion once it has done so. *)
Record cursor : Type := Cursor { script : nat -> iterResult; pos : nat }.

Definition cursor_next (c : cursor) : iterResult * cursor :=
  (script c (pos c), Cursor (script c) (S (pos c))).

(** The iterator of an array: the elements by index, then exhaustion. *)
Definition array_script (items : list jsvalue) (i : nat) : iterResult :=
  match items !! i with
  | Some v => IterResult false v
  | None => finished
  end.

Definition array_iterator (items : list jsvalue) : cursor :=
  Cursor (array_script items) 0.

(** What can be handed to [toIterator]: a plain value, or an object whose
    [Symbol.iterator] method returns the cursor [c] (an [Iterator] returns
    itself). *)
Inductive iterable : Type :=
| FromValue (v : jsvalue)
| FromIterator (c : cursor).

(** [v[Symbol.iterator]]: reading a property of [undefined] or [null]
    throws, numbers and booleans have no such method, arrays have one. *)
Definition iterator_method (v : jsvalue) : outcome (option cursor) :=
  match v with
  | VUndefined | VNull => Throw NullishAccess
  | VBool _ | VNum _ | VNaN => Ok None
  | VArr _ items => Ok (Some (array_iterator items))
  end.

Definition toIterator (base : iterable) : outcome cursor :=
  match base with
  | FromIterator c => Ok c
  | FromValue v =>
      let* m := iterator_method v in
      match m with
      | None => Throw NotIterable
      | Some c => Ok c
      end
  end.

(** ** class Iterator *)

(** [new Iterator(base)] keeps [toIterator(base)] in [this.base]; the state
    of an [Iterator] is that cursor. *)
Definition iter (base : iterable) : outcome cursor := toIterator base.

Definition Iterator_next (it : cursor) : outcome (iterResult * cursor) :=
  Ok (cursor_next it).

(** *** Consumers

    [for (const value of this)] calls [this.next()] until it reports
    exhaustion; [Iterator] has no [return] method, so leaving the loop early
    does nothing more.  The consumers are inherited by every adaptor, hence
    they are parameterised by the [next] of the receiver. *)
Section Consumers.
Context {St : Type} (next : St -> outcome (iterResult * St)).

Fixpoint toArray (fuel : nat) (s : St) : outcome (list jsvalue * St) :=
  match fuel with
  | O => OutOfFuel
  | S f =>
      let* '(r, s1) := next s in
      if done r then Ok ([], s1)
      else let* '(vs, s2) := toArray f s1 in Ok (value r :: vs, s2)
  end.

Fixpoint includes (fuel : nat) (element : jsvalue) (s : St)
  : outcome (bool * St) :=
  match fuel with
  | O => OutOfFuel
  | S f =>
      let* '(r, s1) := next s in
      if done r then Ok (false, s1)
      else if strict_eq (value r) element
              || (isNaN (value r) && isNaN element)
           then Ok (true, s1)
           else includes f element s1
  end.

Fixpoint reduce_loop (fuel : nat) (reducer : jsvalue -> jsvalue -> jsvalue)
    (result : jsvalue) (s : St) : outcome (jsvalue * St) :=
  match fuel with
  | O => OutOfFuel
  | S f =>
      let* '(r, s1) := next s in
      if done r then Ok (result, s1)
      else reduce_loop f reducer (reducer result (value r)) s1
  end.

(** [initialValue] is [None] when the call has one argument; the parameter
    is then [undefined]. *)
Definition reduce (fuel : nat) (reducer : jsvalue -> jsvalue -> jsvalue)
    (initialValue : option jsvalue) (s : St) : outcome (jsvalue * St) :=
  let result :=
    match initialValue with Some v => v | None => VUndefined end in
  let* '(result, s) :=
    if strict_eq result VUndefined then
      let* '(r, s1) := next s in
      if done r then Throw ReduceNoInitial else Ok (value r, s1)
    else Ok (result, s) in
  reduce_loop fuel reducer result s.

Fixpoint someCount_loop (fuel : nat) (predicate : jsvalue -> bool)
    (count : jsvalue) (n : Z) (s : St) : outcome (bool * St) :=
  match fuel with
  | O => OutOfFuel
  | S f =>
      let* '(r, s1) := next s in
      if done r then Ok (false, s1)
      else if predicate (value r) then
             if strict_eq (VNum (n + 1)) count then Ok (true, s1)
             else someCount_loop f predicate count (n + 1) s1
           else someCount_loop f predicate count n s1
  end.

Definition someCount (fuel : nat) (predicate : jsvalue -> bool)
    (count : jsvalue) (s : St) : outcome (bool * St) :=
  someCount_loop fuel predicate count 0 s.

(** [fn.call(thisArg, value)] is called for its effect; the effect is a
    change of the world [w] outside the iterator. *)
Fixpoint forEach {W : Type} (fuel : nat) (fn : jsvalue -> W -> W) (w : W)
    (s : St) : outcome (W * St) :=
  match fuel with
  | O => OutOfFuel
  | S f =>
      let* '(r, s1) := next s in
      if done r then Ok (w, s1)
      else forEach f fn (fn (value r) w) s1
  end.

Definition each {W : Type} (fuel : nat) (fn : jsvalue -> W -> W) (w : W)
    (s : St) : outcome (W * St) :=
  forEach fuel fn w s.

(** [collector(obj, element)] changes [obj]. *)
Definition collectWith {W : Type} (fuel : nat) (obj : W)
    (collector : W -> jsvalue -> W) (s : St) : outcome (W * St) :=
  forEach fuel (fun element o => collector o element) obj s.

Fixpoint every (fuel : nat) (predicate : jsvalue -> bool) (s : St)
  : outcome (bool * St) :=
  match fuel with
  | O => OutOfFuel
  | S f =>
      let* '(r, s1) := next s in
      if done r then Ok (true, s1)
      else if negb (predicate (value r)) then Ok (false, s1)
           else every f predicate s1
  end.

(** Leaving the function without [return] gives [undefined]. *)
Fixpoint find (fuel : nat) (predicate : jsvalue -> bool) (s : St)
  : outcome (jsvalue * St) :=
  match fuel with
  | O => OutOfFuel
  | S f =>
      let* '(r, s1) := next s in
      if done r then Ok (VUndefined, s1)
      else if predicate (value r) then Ok (value r, s1)
           else find f predicate s1
  end.

Fixpoint some (fuel : nat) (predicate : jsvalue -> bool) (s : St)
  : outcome (bool * St) :=
  match fuel with
  | O => OutOfFuel
  | S f =>
      let* '(r, s1) := next s in
      if done r then Ok (false, s1)
      else if predicate (value r) then Ok (true, s1)
           else some f predicate s1
  end.

(** [for (let i = 0; i < amount; i++) this.next()]: the results of the
    calls are dropped; [skip] returns the receiver. *)
Fixpoint skip_loop (fuel : nat) (amount i : Z) (s : St) : outcome St :=
  match fuel with
  | O => OutOfFuel
  | S f =>
      if i <? amount then
        let* '(_, s1) := next s in skip_loop f amount (i + 1) s1
      else Ok s
  end.

Definition skip (fuel : nat) (amount : Z) (s : St) : outcome St :=
  skip_loop fuel amount 0 s.

(** The receiver produces the values [l] and then reports exhaustion. *)
Fixpoint produces (s : St) (l : list jsvalue) : Prop :=
  match l with
  | [] => exists r s', next s = Ok (r, s') /\ done r = true
  | x :: l' =>
      exists s', next s = Ok (IterResult false x, s') /\ produces s' l'
  end.

(** The result and state of the call number [k] (from 0) in a run of
    successive [next()] calls. *)
Fixpoint nth_pull (k : nat) (s : St) : outcome (iterResult * St) :=
  match k with
  | O => next s
  | S k' => let* '(_, s1) := next s in nth_pull k' s1
  end.

(** Every call from state [s] on returns, and reports exhaustion. *)
Definition stays_exhausted (s : St) : Prop :=
  forall k, exists r s', nth_pull k s = Ok (r, s') /\ done r = true.
End Consumers.

(** ** class MapIterator *)

Record MapIterator : Type := MkMap {
  map_base : cursor;
  map_mapper : jsvalue -> jsvalue }.

Definition MapIterator_new (base : cursor) (mapper : jsvalue -> jsvalue)
  : MapIterator := MkMap base mapper.

Definition MapIterator_next (it : MapIterator)
  : outcome (iterResult * MapIterator) :=
  let* '(r, b) := Iterator_next (map_base it) in
  Ok (IterResult (done r)
        (if done r then VUndefined else map_mapper it (value r)),
      MkMap b (map_mapper it)).

(** ** class FilterIterator *)

Record FilterIterator : Type := MkFilter {
  filter_base : cursor;
  filter_predicate : jsvalue -> bool }.

Definition FilterIterator_new (base : cursor) (predicate : jsvalue -> bool)
  : FilterIterator := MkFilter base predicate.

(** One unit of fuel per turn of [for (const value of this.base)]. *)
Fixpoint FilterIterator_next (fuel : nat) (it : FilterIterator)
  : outcome (iterResult * FilterIterator) :=
  match fuel with
  | O => OutOfFuel
  | S f =>
      let* '(r, b) := Iterator_next (filter_base it) in
      let it1 := MkFilter b (filter_predicate it) in
      if done r then Ok (finished, it1)
      else if filter_predicate it (value r)
           then Ok (IterResult false (value r), it1)
           else FilterIterator_next f it1
  end.

(** ** class FlatIterator *)

(** [this.stack] is an array of [depth + 1] slots; a slot holds a cursor,
    or [null] or nothing ([None]).  [this.base] is the object in slot 0 and
    is not read by [next()]. *)
Record FlatIterator : Type := MkFlat {
  currentDepth : Z;
  stack : list (option cursor) }.

(** The constructor for a depth at which [new Array(depth + 1)] succeeds;
    [flat] below is the method, with the failure of the allocation. *)
Definition FlatIterator_new (base : cursor) (depth : nat) : FlatIterator :=
  MkFlat 0 (<[0%nat := Some base]> (replicate (depth + 1) None)).

(** [new Array(len)] for an integral [len]: [len] empty slots; a negative
    length, or one above 2^32 - 1, throws a RangeError. *)
Definition new_Array (len : Z) : outcome (list (option cursor)) :=
  if (len <? 0) || (2 ^ 32 - 1 <? len) then Throw InvalidArrayLength
  else Ok (replicate (Z.to_nat len) None).

(** [stack[0] = base]: on an array of length 0 the assignment adds the
    slot. *)
Definition assign_first (x : option cursor) (slots : list (option cursor))
  : list (option cursor) :=
  match slots with
  | [] => [x]
  | _ :: rest => x :: rest
  end.

(** [flat(depth = 1)] with the constructor it calls: [depth] is [None] when
    the argument is left out. *)
Definition flat (base : cursor) (depth : option Z) : outcome FlatIterator :=
  let depth := match depth with Some d => d | None => 1 end in
  let* slots := new_Array (depth + 1) in
  Ok (MkFlat 0 (assign_first (Some base) slots)).

(** One unit of fuel per turn of the [while] loop. *)
Fixpoint FlatIterator_next (fuel : nat) (it : FlatIterator)
  : outcome (iterResult * FlatIterator) :=
  match fuel with
  | O => OutOfFuel
  | S f =>
      if currentDepth it <? 0 then Ok (finished, it)
      else
        let d := Z.to_nat (currentDepth it) in
        match stack it !! d with
        | Some (Some top) =>
            let* '(nx, top1) := Iterator_next top in
            let stack1 := <[d := Some top1]> (stack it) in
            if done nx then
              FlatIterator_next f
                (MkFlat (currentDepth it - 1) (<[d := None]> stack1))
            else
              let* sub :=
                if currentDepth it =? Z.of_nat (length (stack it)) - 1
                then Ok None
                else iterator_method (value nx) in
              match sub with
              | None => Ok (nx, MkFlat (currentDepth it) stack1)
              | Some c =>
                  FlatIterator_next f
                    (MkFlat (currentDepth it + 1)
                       (<[Z.to_nat (currentDepth it + 1) := Some c]> stack1))
              end
        | _ => Throw NullishAccess
        end
  end.

(** ** class FlatMapIterator *)

Record FlatMapIterator : Type := MkFlatMap {
  flatMap_base : cursor;
  flatMap_mapper : jsvalue -> jsvalue;
  currentIterator : option cursor }.

Definition FlatMapIterator_new (base : cursor) (mapper : jsvalue -> jsvalue)
  : FlatMapIterator := MkFlatMap base mapper None.

(** [next()] calls itself when the current sub-iterator is exhausted.  The
    fuel bounds the number of nested activations of [next()]: the outermost
    call is given [fuel], the call it makes [fuel - 1], and so on. *)
Fixpoint FlatMapIterator_next (fuel : nat) (it : FlatMapIterator)
  : outcome (iterResult * FlatMapIterator) :=
  match fuel with
  | O => OutOfFuel
  | S f =>
      let mapper := flatMap_mapper it in
      (* the first [if]: either [return] (inl) or fall through (inr) *)
      let* step :=
        match currentIterator it with
        | Some cur => Ok (inr (cur, flatMap_base it))
        | None =>
            let* '(nx, b) := Iterator_next (flatMap_base it) in
            if done nx then Ok (inl (nx, MkFlatMap b mapper None))
            else
              let v := mapper (value nx) in
              let* m := iterator_method v in
              match m with
              | None => Ok (inl (IterResult false v, MkFlatMap b mapper None))
              | Some _ =>
                  let* cur := toIterator (FromValue v) in Ok (inr (cur, b))
              end
        end in
      match step with
      | inl ret => Ok ret
      | inr (cur, b) =>
          let* '(nx, cur1) := Iterator_next cur in
          if done nx then FlatMapIterator_next f (MkFlatMap b mapper None)
          else Ok (nx, MkFlatMap b mapper (Some cur1))
      end
  end.

(** ** class TakeIterator *)

Record TakeIterator : Type := MkTake {
  take_base : cursor;
  amount : Z;
  iterated : Z }.

Definition TakeIterator_new (base : cursor) (amount : Z) : TakeIterator :=
  MkTake base amount 0.

Definition TakeIterator_next (it : TakeIterator)
  : outcome (iterResult * TakeIterator) :=
  let iterated1 := iterated it + 1 in
  if iterated1 <=? amount it then
    let* '(r, b) := Iterator_next (take_base it) in
    Ok (r, MkTake b (amount it) iterated1)
  else Ok (finished, MkTake (take_base it) (amount it) iterated1).

(** ** class TakeWhileIterator *)

Record TakeWhileIterator : Type := MkTakeWhile {
  takeWhile_base : cursor;
  takeWhile_predicate : jsvalue -> bool;
  takeWhile_done : bool }.

Definition TakeWhileIterator_new (base : cursor) (predicate : jsvalue -> bool)
  : TakeWhileIterator := MkTakeWhile base predicate false.

Definition TakeWhileIterator_next (it : TakeWhileIterator)
  : outcome (iterResult * TakeWhileIterator) :=
  if takeWhile_done it then Ok (finished, it)
  else
    let* '(nx, b) := Iterator_next (takeWhile_base it) in
    if negb (done nx) && takeWhile_predicate it (value nx)
    then Ok (nx, MkTakeWhile b (takeWhile_predicate it) false)
    else Ok (finished, MkTakeWhile b (takeWhile_predicate it) true).

(** ** class ZipIterator *)

(** [zip_fresh] is the reference that the next [const result = []] gets. *)
Record ZipIterator : Type := MkZip {
  zip_base : cursor;
  zip_iterators : list cursor;
  zip_fresh : nat }.

(** [iterators.map(toIterator)]: the conversions run in order, and the first
    one that throws ends the call. *)
Fixpoint map_toIterator (iterators : list iterable) : outcome (list cursor) :=
  match iterators with
  | [] => Ok []
  | i :: rest =>
      let* c := toIterator i in
      let* cs := map_toIterator rest in
      Ok (c :: cs)
  end.

Definition ZipIterator_new (base : cursor) (iterators : list iterable)
    (fresh : nat) : outcome ZipIterator :=
  let* cs := map_toIterator iterators in
  Ok (MkZip base cs fresh).

(** [for (const iterator of this.iterators)]: [result] collects the values;
    the loop is left with [inl next] at the first exhausted cursor. *)
Fixpoint zip_loop (iterators : list cursor) (result : list jsvalue)
  : (iterResult + list jsvalue) * list cursor :=
  match iterators with
  | [] => (inr result, [])
  | c :: rest =>
      let '(nx, c1) := cursor_next c in
      if done nx then (inl nx, c1 :: rest)
      else
        let '(res, rest1) := zip_loop rest (result ++ [value nx]) in
        (res, c1 :: rest1)
  end.

Definition ZipIterator_next (it : ZipIterator)
  : outcome (iterResult * ZipIterator) :=
  let* '(nx, b) := Iterator_next (zip_base it) in
  if done nx then
    Ok (nx, MkZip b (zip_iterators it) (S (zip_fresh it)))
  else
    let '(res, cs) := zip_loop (zip_iterators it) [value nx] in
    let it1 := MkZip b cs (S (zip_fresh it)) in
    match res with
    | inl nx1 => Ok (nx1, it1)
    | inr result => Ok (IterResult false (VArr (zip_fresh it) result), it1)
    end.

(** ** class JoinIterator *)

(** [this.iterators] is the array iterator over the array of converted
    cursors; its state is the list of the cursors it has not handed out yet.
    [this.base] is not read by [next()]. *)
Record JoinIterator : Type := MkJoin {
  join_current : cursor;
  join_iterators : list cursor }.

Definition JoinIterator_new (base : cursor) (iterators : list iterable)
  : outcome JoinIterator :=
  let* cs := map_toIterator iterators in
  Ok (MkJoin base cs).

(** [next()] calls itself after it has taken the next cursor from
    [this.iterators], so the recursion is on the cursors left. *)
Fixpoint join_pull (current : cursor) (iterators : list cursor)
  : iterResult * JoinIterator :=
  let '(nx, cur1) := cursor_next current in
  if negb (done nx) then (nx, MkJoin cur1 iterators)
  else
    match iterators with
    | [] => (finished, MkJoin cur1 [])
    | c :: rest => join_pull c rest
    end.

Definition JoinIterator_next (it : JoinIterator)
  : outcome (iterResult * JoinIterator) :=
  Ok (join_pull (join_current it) (join_iterators it)).

(** * Properties *)

(** ** Cursors *)

(** Exhaustion of [c] is permanent: from its current position on, a call
    that reports exhaustion is followed only by such calls. *)
Definition permanent (c : cursor) : Prop :=
  forall i j : nat, (pos c <= i)%nat -> (i <= j)%nat ->
    done (script c i) = true -> done (script c j) = true.

(** Every further call on [c] reports exhaustion. *)
Definition exhausted (c : cursor) : Prop :=
  forall j : nat, (pos c <= j)%nat -> done (script c j) = true.

(** [c] is a finite sequence with the values [l] left: it behaves from its
    current position on as the iterator of the array [l] does. *)
Definition yields (c : cursor) (l : list jsvalue) : Prop :=
  forall i : nat, script c (pos c + i) = array_script l i.

(** A cursor that breaks permanence: it reports exhaustion at its first
    call and produces the value 1 at every later call. *)
Definition resuming_cursor : cursor :=
  Cursor (fun i => match i with
                   | O => finished
                   | S _ => IterResult false (VNum 1)
                   end) 0.

(** The cursor after one call of [next()]. *)
Definition advance (c : cursor) : cursor := snd (cursor_next c).

(** The length of the shortest of the sequences [xs], [yss]. *)
Definition min_length (xs : list jsvalue) (yss : list (list jsvalue)) : nat :=
  foldr Nat.min (length xs) (length <$> yss).

(** The values at index [i] of each of the sequences [ls], in order. *)
Definition column (ls : list (list jsvalue)) (i : nat) : list jsvalue :=
  (fun l => nth i l VUndefined) <$> ls.

(** [undefined] and [null], the values whose properties cannot be read. *)
Definition nullish (v : jsvalue) : bool :=
  match v with
  | VUndefined | VNull => true
  | _ => false
  end.

(** Flattening by one level: an array is replaced by its items, any other
    value stays. *)
Definition flatten_one (l : list jsvalue) : list jsvalue :=
  concat ((fun v => match v with VArr _ items => items | _ => [v] end) <$> l).

(** The states a [flat(1)] iterator goes through over a sequence without
    [undefined] or [null] at its top level, with the values it has yet to
    produce and a bound on the turns of the [while] loop that its next call
    takes: at the outer level with [l] left upstream; inside a sub-array with
    [li] left in it; and exhausted. *)
Inductive flat1_state : FlatIterator -> list jsvalue -> nat -> Prop :=
| Flat1_outer c s1 l :
    yields c l -> Forall (fun v => nullish v = false) l ->
    flat1_state (MkFlat 0 [Some c; s1]) (flatten_one l) (2 * length l + 2)
| Flat1_inner c ci l li :
    yields c l -> Forall (fun v => nullish v = false) l -> yields ci li ->
    flat1_state (MkFlat 1 [Some c; Some ci]) (li ++ flatten_one l)
      (2 * length l + 3)
| Flat1_end stk :
    flat1_state (MkFlat (-1) stk) [] 1.

(** The values of type number. *)
Definition is_number (v : jsvalue) : bool :=
  match v with
  | VNum _ | VNaN => true
  | _ => false
  end.

(** [c] produces at least the values [l], whatever it does afterwards; it
    may be an endless sequence. *)
Definition starts_with (c : cursor) (l : list jsvalue) : Prop :=
  forall (i : nat) (x : jsvalue),
    l !! i = Some x -> script c (pos c + i) = IterResult false x.

(** Flattening by [depth] levels. *)
Fixpoint flatten (depth : nat) (l : list jsvalue) : list jsvalue :=
  match depth with
  | O => l
  | S d =>
      concat ((fun v => match v with
                        | VArr _ items => flatten d items
                        | _ => [v]
                        end) <$> l)
  end.

(** No value that [flat(depth)] probes for [Symbol.iterator] is [undefined]
    or [null]: the values at the last level are not probed. *)
Fixpoint probe_safe (depth : nat) (l : list jsvalue) : Prop :=
  match depth with
  | O => True
  | S d =>
      Forall (fun v => nullish v = false
                       /\ match v with
                          | VArr _ items => probe_safe d items
                          | _ => True
                          end) l
  end.

(** The turns of the [while] loop of [FlatIterator.next] that a cursor over
    [l] with [depth] levels below it takes until it is popped: one per value,
    those of the sub-arrays it opens, and one for its exhaustion. *)
Fixpoint turns (depth : nat) (l : list jsvalue) : nat :=
  match depth with
  | O => S (length l)
  | S d =>
      S (sum_list ((fun v => match v with
                             | VArr _ items => S (turns d items)
                             | _ => 1%nat
                             end) <$> l))
  end.

(** The active part of the stack of a [FlatIterator], top first: each
    cursor with the values it has left.  [above] are the unused slots. *)
Definition flat_frames (frames : list (cursor * list jsvalue))
    (above : list (option cursor)) : FlatIterator :=
  MkFlat (Z.of_nat (length frames) - 1)
    (reverse ((fun fr => Some (fst fr)) <$> frames) ++ above).

(** The frames are cursors over what they are said to have left, and
    nothing probed is [undefined] or [null]; [n] is the number of levels
    below the top frame. *)
Fixpoint frames_ok (n : nat) (frames : list (cursor * list jsvalue)) : Prop :=
  match frames with
  | [] => True
  | fr :: rest =>
      yields (fst fr) (snd fr) /\ probe_safe n (snd fr)
      /\ frames_ok (S n) rest
  end.

Fixpoint frames_out (n : nat) (frames : list (cursor * list jsvalue))
  : list jsvalue :=
  match frames with
  | [] => []
  | fr :: rest => flatten n (snd fr) ++ frames_out (S n) rest
  end.

Fixpoint frames_turns (n : nat) (frames : list (cursor * list jsvalue))
  : nat :=
  match frames with
  | [] => 1%nat
  | fr :: rest => (turns n (snd fr) + frames_turns (S n) rest)%nat
  end.

(** The states a [FlatMapIterator] goes through when no mapped value is
    [undefined] or [null], with the values it has yet to produce and a bound
    on the fuel that its next call needs: between sub-sequences, with
    [l] left upstream, and inside a sub-sequence with [li] left in it. *)
Inductive flatMap_state (mapper : jsvalue -> jsvalue)
  : FlatMapIterator -> list jsvalue -> nat -> Prop :=
| FlatMap_between c l :
    yields c l -> Forall (fun x => nullish (mapper x) = false) l ->
    flatMap_state mapper (MkFlatMap c mapper None)
      (flatten_one (mapper <$> l)) (length l + 1)
| FlatMap_inside c ci l li :
    yields c l -> Forall (fun x => nullish (mapper x) = false) l ->
    yields ci li ->
    flatMap_state mapper (MkFlatMap c mapper (Some ci))
      (li ++ flatten_one (mapper <$> l)) (length l + 2).

Lemma array_iterator_yields (l : list jsvalue) : yields (array_iterator l) l.
Proof. intros i. reflexivity. Qed.

Lemma yields_cons c x l :
  yields c (x :: l) ->
  fst (cursor_next c) = IterResult false x /\ yields (snd (cursor_next c)) l.
Proof.
  intros H. split.
  - specialize (H 0%nat). rewrite Nat.add_0_r in H. exact H.
  - intros i. specialize (H (S i)).
    change (array_script (x :: l) (S i)) with (array_script l i) in H.
    rewrite <- H. simpl. f_equal. lia.
Qed.

Lemma yields_nil c :
  yields c [] ->
  fst (cursor_next c) = finished /\ yields (snd (cursor_next c)) [].
Proof.
  intros H. split.
  - specialize (H 0%nat). rewrite Nat.add_0_r in H. exact H.
  - intros i. transitivity (script c (pos c + S i)).
    + simpl. f_equal. lia.
    + rewrite H. reflexivity.
Qed.

Lemma yields_permanent c l : yields c l -> permanent c.
Proof.
  intros H i j Hi Hj.
  replace i with (pos c + (i - pos c))%nat by lia.
  replace j with (pos c + (j - pos c))%nat by lia.
  rewrite !H. unfold array_script.
  destruct (l !! (i - pos c)%nat) eqn:Ei; [discriminate|].
  intros _. apply lookup_ge_None in Ei.
  rewrite (proj2 (lookup_ge_None l (j - pos c)%nat)); [reflexivity | lia].
Qed.

Lemma permanent_next c : permanent c -> permanent (snd (cursor_next c)).
Proof. intros H i j Hi Hj. simpl in *. apply H; lia. Qed.

Lemma permanent_done_exhausted c :
  permanent c -> done (fst (cursor_next c)) = true ->
  exhausted (snd (cursor_next c)).
Proof.
  intros H Hd j Hj. simpl in *. apply (H (pos c)); [lia | lia | exact Hd].
Qed.

Lemma exhausted_next c :
  exhausted c ->
  done (fst (cursor_next c)) = true /\ exhausted (snd (cursor_next c)).
Proof.
  intros H. split.
  - apply H. lia.
  - intros j Hj. simpl in *. apply H. lia.
Qed.

(** ** [toArray] on a finite sequence *)

Lemma toArray_Iterator c l fuel :
  yields c l -> (length l < fuel)%nat ->
  exists c', toArray Iterator_next fuel c = Ok (l, c')
             /\ pos c' = S (pos c + length l) /\ yields c' [].
Proof.
  revert c fuel. induction l as [|x l IH]; intros c fuel Hy Hf.
  - destruct fuel as [|f]; [simpl in Hf; lia|].
    destruct (yields_nil c Hy) as [Hr Hy'].
    exists (snd (cursor_next c)). simpl in *. rewrite Hr. simpl.
    repeat split; [lia | exact Hy'].
  - destruct fuel as [|f]; [simpl in Hf; lia|].
    destruct (yields_cons c x l Hy) as [Hr Hy'].
    destruct (IH (snd (cursor_next c)) f Hy') as (c' & E & Hp & Hn).
    { simpl in Hf. lia. }
    exists c'. simpl in *. rewrite Hr. simpl. rewrite E. simpl.
    repeat split; [lia | exact Hn].
Qed.

(** ** [take] *)

Lemma toArray_S {St : Type} (next : St -> outcome (iterResult * St)) f s :
  toArray next (S f) s
  = let* '(r, s1) := next s in
    if done r then Ok ([], s1)
    else let* '(vs, s2) := toArray next f s1 in Ok (value r :: vs, s2).
Proof. reflexivity. Qed.

Lemma TakeIterator_next_delegates c n i :
  i + 1 <= n ->
  TakeIterator_next (MkTake c n i)
  = Ok (fst (cursor_next c), MkTake (snd (cursor_next c)) n (i + 1)).
Proof.
  intros H. unfold TakeIterator_next. simpl.
  destruct (Z.leb_spec (i + 1) n); [reflexivity | lia].
Qed.

Lemma TakeIterator_next_stops c n i :
  n < i + 1 ->
  TakeIterator_next (MkTake c n i) = Ok (finished, MkTake c n (i + 1)).
Proof.
  intros H. unfold TakeIterator_next. simpl.
  destruct (Z.leb_spec (i + 1) n); [lia | reflexivity].
Qed.

(** A [TakeIterator] whose counter stands at [i], over a sequence with the
    values [l] left, produces the first [amount - i] of them, and pulls from
    its upstream once per produced value, plus once more only when the
    upstream runs out first. *)
Lemma toArray_TakeIterator c l n i fuel :
  yields c l -> (length l < fuel)%nat ->
  exists it',
    toArray TakeIterator_next fuel (MkTake c n i)
      = Ok (take (Z.to_nat (n - i)) l, it')
    /\ pos (take_base it')
       = (pos c + Nat.min (Z.to_nat (n - i)) (S (length l)))%nat.
Proof.
  revert c i fuel. induction l as [|x l IH]; intros c i fuel Hy Hf;
    (destruct fuel as [|f]; [simpl in Hf; lia|]);
    rewrite toArray_S;
    (destruct (Z.le_gt_cases (i + 1) n) as [Hle|Hgt];
     [rewrite TakeIterator_next_delegates by lia
     |rewrite TakeIterator_next_stops by lia]); cbn [bind].
  - destruct (yields_nil c Hy) as [Hr _]. rewrite Hr. cbn.
    eexists. split; [by rewrite take_nil|]. cbn. lia.
  - eexists. split; [by rewrite take_nil|]. cbn. lia.
  - destruct (yields_cons c x l Hy) as [Hr Hy']. rewrite Hr. cbn [done value].
    destruct (IH (snd (cursor_next c)) (i + 1) f Hy') as (it' & E & Hp).
    { simpl in Hf. lia. }
    rewrite E. cbn [bind]. exists it'. split.
    + replace (Z.to_nat (n - i)) with (S (Z.to_nat (n - (i + 1)))) by lia.
      reflexivity.
    + rewrite Hp. cbn. lia.
  - cbn. eexists. split.
    + replace (Z.to_nat (n - i)) with 0%nat by lia. reflexivity.
    + cbn. lia.
Qed.

(** With a target of 0 the upstream cursor is never touched, however often
    [next()] is called. *)
Lemma TakeIterator_zero_pulls c n i k :
  n <= i ->
  exists it', nth_pull TakeIterator_next k (MkTake c n i) = Ok (finished, it')
              /\ take_base it' = c.
Proof.
  revert i. induction k as [|k IH]; intros i Hi; cbn [nth_pull];
    rewrite TakeIterator_next_stops by lia; cbn [bind].
  - eexists. split; reflexivity.
  - apply IH. lia.
Qed.

(** C7. For every [n] and every sequence with the [L] values [l], [take(n)]
    produces exactly the first [min(n, L)] values of [l], in order (none
    when [n] is negative); and [take(0)] over any cursor [c0] produces the
    empty sequence and leaves [c0] as it was, for any number of [next()]
    calls. *)
Theorem take_yields_first_min (c : cursor) (l : list jsvalue) (n : Z)
    (fuel : nat) :
  yields c l -> (length l < fuel)%nat ->
  (exists it',
     toArray TakeIterator_next fuel (TakeIterator_new c n)
       = Ok (take (Z.to_nat (Z.min n (Z.of_nat (length l)))) l, it')
     /\ length (take (Z.to_nat (Z.min n (Z.of_nat (length l)))) l)
        = Z.to_nat (Z.min n (Z.of_nat (length l))))
  /\ (forall c0 : cursor,
        (exists it', toArray TakeIterator_next fuel (TakeIterator_new c0 0)
                       = Ok ([], it') /\ take_base it' = c0)
        /\ forall k, exists it',
             nth_pull TakeIterator_next k (TakeIterator_new c0 0)
               = Ok (finished, it') /\ take_base it' = c0).
Proof.
  intros Hy Hf. split.
  - destruct (toArray_TakeIterator c l n 0 fuel Hy Hf) as (it' & E & _).
    exists it'. split.
    + unfold TakeIterator_new. rewrite E. f_equal. f_equal.
      rewrite Z.sub_0_r.
      destruct (Z.le_ge_cases n (Z.of_nat (length l))) as [H|H].
      * rewrite Z.min_l by lia. reflexivity.
      * rewrite Z.min_r by lia. rewrite Nat2Z.id.
        rewrite !take_ge by lia. reflexivity.
    + rewrite length_take. lia.
  - intros c0. split.
    + destruct fuel as [|f]; [lia|]. eexists. split; reflexivity.
    + intros k. apply TakeIterator_zero_pulls. lia.
Qed.

Lemma take_yields_first_min_witness :
  (exists it',
     toArray TakeIterator_next 4
       (TakeIterator_new (array_iterator [VNum 1; VNum 2; VNum 3]) 2)
     = Ok ([VNum 1; VNum 2], it'))
  /\ exists it',
       toArray TakeIterator_next 4
         (TakeIterator_new (array_iterator [VNum 1; VNum 2; VNum 3]) 0)
       = Ok ([], it')
       /\ take_base it' = array_iterator [VNum 1; VNum 2; VNum 3].
Proof.
  destruct (take_yields_first_min
              (array_iterator [VNum 1; VNum 2; VNum 3])
              [VNum 1; VNum 2; VNum 3] 2 4%nat
              (array_iterator_yields _) ltac:(simpl; lia))
    as [(it' & E & _) H0].
  split.
  - exists it'. exact E.
  - exact (proj1 (H0 (array_iterator [VNum 1; VNum 2; VNum 3]))).
Defined.

(** ** [reduce] *)

Lemma reduce_loop_S {St : Type} (next : St -> outcome (iterResult * St))
    f reducer result s :
  reduce_loop next (S f) reducer result s
  = let* '(r, s1) := next s in
    if done r then Ok (result, s1)
    else reduce_loop next f reducer (reducer result (value r)) s1.
Proof. reflexivity. Qed.

Lemma reduce_loop_Iterator c l fuel reducer result :
  yields c l -> (length l < fuel)%nat ->
  exists c', reduce_loop Iterator_next fuel reducer result c
             = Ok (fold_left reducer l result, c')
             /\ yields c' [].
Proof.
  revert c fuel result. induction l as [|x l IH]; intros c fuel result Hy Hf;
    (destruct fuel as [|f]; [simpl in Hf; lia|]);
    rewrite reduce_loop_S; unfold Iterator_next; cbn [bind].
  - destruct (yields_nil c Hy) as [Hr Hy'].
    rewrite (surjective_pairing (cursor_next c)), Hr. cbn.
    eexists. split; [reflexivity | exact Hy'].
  - destruct (yields_cons c x l Hy) as [Hr Hy'].
    rewrite (surjective_pairing (cursor_next c)), Hr. cbn [done value].
    apply IH; [exact Hy' | simpl in Hf; lia].
Qed.

(** With one argument, an exhausted receiver makes [reduce] throw. *)
Lemma reduce_no_initial_exhausted {St : Type}
    (next : St -> outcome (iterResult * St)) fuel reducer s r s1 :
  next s = Ok (r, s1) -> done r = true ->
  reduce next fuel reducer None s = Throw ReduceNoInitial.
Proof.
  intros E Hd. unfold reduce. cbn. rewrite E. cbn. rewrite Hd. reflexivity.
Qed.

(** With an initial value that is not [undefined], an exhausted receiver
    makes [reduce] return the initial value. *)
Lemma reduce_initial_exhausted {St : Type}
    (next : St -> outcome (iterResult * St)) fuel reducer init s r s1 :
  next s = Ok (r, s1) -> done r = true ->
  strict_eq init VUndefined = false ->
  reduce next (S fuel) reducer (Some init) s = Ok (init, s1).
Proof.
  intros E Hd Hi. unfold reduce. cbn beta iota zeta. rewrite Hi. cbn [bind].
  rewrite reduce_loop_S, E. cbn. rewrite Hd. reflexivity.
Qed.

Lemma strict_eq_undefined v :
  strict_eq v VUndefined = false <-> v <> VUndefined.
Proof. destruct v; cbn; split; intros; congruence. Qed.

(** Counterexample to C6 as stated: the empty array reduced with the
    initial value [undefined] does not return [undefined]; it throws. *)
Lemma reduce_initial_undefined_empty_throws :
  reduce Iterator_next 1 (fun acc _ => acc) (Some VUndefined)
    (array_iterator [])
  = Throw ReduceNoInitial
  /\ ~ exists c', reduce Iterator_next 1 (fun acc _ => acc) (Some VUndefined)
                    (array_iterator [])
                  = Ok (VUndefined, c').
Proof.
  split; [reflexivity|]. intros [c' H]. cbv in H. discriminate H.
Qed.

(** C6, amended. Over an exhausted sequence, [reduce] with no initial value
    raises the reduce-without-seed error, and [reduce] with an initial value
    other than [undefined] returns that value unchanged.  This holds for the
    [next] of any adaptor. *)
Theorem reduce_exhausted {St : Type} (next : St -> outcome (iterResult * St))
    (fuel : nat) (reducer : jsvalue -> jsvalue -> jsvalue) (s s1 : St)
    (r : iterResult) :
  next s = Ok (r, s1) -> done r = true ->
  reduce next fuel reducer None s = Throw ReduceNoInitial
  /\ forall init : jsvalue, init <> VUndefined ->
       reduce next (S fuel) reducer (Some init) s = Ok (init, s1).
Proof.
  intros E Hd. split.
  - eapply reduce_no_initial_exhausted; eassumption.
  - intros init Hi. eapply reduce_initial_exhausted; try eassumption.
    by apply strict_eq_undefined.
Qed.

Lemma reduce_exhausted_witness :
  reduce Iterator_next 0 (fun acc _ => acc) None (array_iterator [])
  = Throw ReduceNoInitial
  /\ reduce Iterator_next 1 (fun acc _ => acc) (Some (VNum 7))
       (array_iterator [])
     = Ok (VNum 7, snd (cursor_next (array_iterator []))).
Proof.
  destruct (reduce_exhausted Iterator_next 0 (fun acc _ => acc)
              (array_iterator []) (snd (cursor_next (array_iterator [])))
              finished eq_refl eq_refl) as [H1 H2].
  split; [exact H1|]. apply H2. discriminate.
Defined.

(** C9. [reduce] called with the explicit initial value [undefined] is the
    same computation as [reduce] called without one: over a sequence that
    still has the values [x :: l] the accumulator starts from [x], and over
    an exhausted sequence the reduce-without-seed error is raised. *)
Theorem reduce_undefined_as_omitted :
  (forall (St : Type) (next : St -> outcome (iterResult * St)) fuel reducer s,
     reduce next fuel reducer (Some VUndefined) s
     = reduce next fuel reducer None s)
  /\ (forall c x l fuel reducer,
        yields c (x :: l) -> (length l < fuel)%nat ->
        exists c', reduce Iterator_next fuel reducer (Some VUndefined) c
                   = Ok (fold_left reducer l x, c'))
  /\ (forall (St : Type) (next : St -> outcome (iterResult * St)) fuel
        reducer s r s1,
        next s = Ok (r, s1) -> done r = true ->
        reduce next fuel reducer (Some VUndefined) s = Throw ReduceNoInitial).
Proof.
  split; [reflexivity|]. split.
  - intros c x l fuel reducer Hy Hf.
    destruct (yields_cons c x l Hy) as [Hr Hy'].
    destruct (reduce_loop_Iterator _ l fuel reducer x Hy' Hf) as (c' & E & _).
    exists c'. unfold reduce. cbn beta iota zeta. cbn [strict_eq].
    unfold Iterator_next at 1. cbn [bind].
    rewrite (surjective_pairing (cursor_next c)), Hr. cbn [done value bind].
    exact E.
  - intros St next fuel reducer s r s1 E Hd.
    change (reduce next fuel reducer None s = Throw ReduceNoInitial).
    eapply reduce_no_initial_exhausted; eassumption.
Qed.

Lemma reduce_undefined_as_omitted_witness :
  (exists c', reduce Iterator_next 3 (fun acc v => VArr 0 [acc; v])
                (Some VUndefined) (array_iterator [VNum 1; VNum 2])
              = Ok (VArr 0 [VNum 1; VNum 2], c'))
  /\ reduce Iterator_next 3 (fun acc v => VArr 0 [acc; v])
       (Some VUndefined) (array_iterator [])
     = Throw ReduceNoInitial.
Proof.
  destruct reduce_undefined_as_omitted as (_ & H2 & H3). split.
  - apply (H2 (array_iterator [VNum 1; VNum 2]) (VNum 1) [VNum 2] 3%nat
             (fun acc v => VArr 0 [acc; v]) (array_iterator_yields _)).
    simpl. lia.
  - apply (H3 cursor Iterator_next 3%nat (fun acc v => VArr 0 [acc; v])
             (array_iterator []) finished
             (snd (cursor_next (array_iterator []))) eq_refl eq_refl).
Defined.

(** ** [someCount] *)

Lemma someCount_loop_S {St : Type} (next : St -> outcome (iterResult * St))
    f predicate count n s :
  someCount_loop next (S f) predicate count n s
  = let* '(r, s1) := next s in
    if done r then Ok (false, s1)
    else if predicate (value r) then
           if strict_eq (VNum (n + 1)) count then Ok (true, s1)
           else someCount_loop next f predicate count (n + 1) s1
         else someCount_loop next f predicate count n s1.
Proof. reflexivity. Qed.

(** The counter is at least 1 when it is compared, so it never equals 0. *)
Lemma someCount_loop_zero_never_true {St : Type}
    (next : St -> outcome (iterResult * St)) fuel predicate n s s' :
  0 <= n ->
  someCount_loop next fuel predicate (VNum 0) n s <> Ok (true, s').
Proof.
  revert n s. induction fuel as [|f IH]; intros n s Hn; [discriminate|].
  rewrite someCount_loop_S. destruct (next s) as [[r s1]|e|]; cbn [bind];
    try discriminate.
  destruct (done r); [discriminate|].
  destruct (predicate (value r)); [|by apply IH].
  cbn [strict_eq]. destruct (Z.eqb_spec (n + 1) 0) as [E|_]; [lia|].
  apply IH. lia.
Qed.

Lemma someCount_loop_zero_Iterator c l fuel predicate n :
  0 <= n -> yields c l -> (length l < fuel)%nat ->
  exists c', someCount_loop Iterator_next fuel predicate (VNum 0) n c
             = Ok (false, c')
             /\ pos c' = S (pos c + length l) /\ yields c' [].
Proof.
  revert c fuel n. induction l as [|x l IH]; intros c fuel n Hn Hy Hf;
    (destruct fuel as [|f]; [simpl in Hf; lia|]);
    rewrite someCount_loop_S; unfold Iterator_next; cbn [bind].
  - destruct (yields_nil c Hy) as [Hr Hy'].
    rewrite (surjective_pairing (cursor_next c)), Hr. cbn.
    eexists. split; [reflexivity|]. split; [cbn; lia | exact Hy'].
  - destruct (yields_cons c x l Hy) as [Hr Hy'].
    rewrite (surjective_pairing (cursor_next c)), Hr. cbn [done value].
    assert (Hf' : (length l < f)%nat) by (simpl in Hf; lia).
    cbn [strict_eq]. destruct (Z.eqb_spec (n + 1) 0) as [E|_]; [lia|].
    destruct (predicate x).
    + destruct (IH _ f (n + 1) ltac:(lia) Hy' Hf') as (c' & E & Hp & Hn').
      exists c'. split; [exact E|]. split; [|exact Hn'].
      rewrite Hp. cbn. lia.
    + destruct (IH _ f n Hn Hy' Hf') as (c' & E & Hp & Hn').
      exists c'. split; [exact E|]. split; [|exact Hn'].
      rewrite Hp. cbn. lia.
Qed.

(** C10. For every sequence with the values [l] left and every predicate,
    [someCount(predicate, 0)] pulls every value and the exhaustion signal
    and returns [false]; and on any receiver whatever, with any fuel,
    [someCount(predicate, 0)] never returns [true]. *)
Theorem someCount_zero (predicate : jsvalue -> bool) :
  (forall c l fuel,
     yields c l -> (length l < fuel)%nat ->
     exists c', someCount Iterator_next fuel predicate (VNum 0) c
                = Ok (false, c')
                /\ pos c' = S (pos c + length l) /\ yields c' [])
  /\ (forall (St : Type) (next : St -> outcome (iterResult * St)) fuel s s',
        someCount next fuel predicate (VNum 0) s <> Ok (true, s')).
Proof.
  split.
  - intros c l fuel Hy Hf.
    by apply someCount_loop_zero_Iterator.
  - intros St next fuel s s'.
    by apply someCount_loop_zero_never_true.
Qed.

Lemma someCount_zero_witness :
  exists c', someCount Iterator_next 3 (fun _ => true) (VNum 0)
               (array_iterator [VNum 1; VNum 2])
             = Ok (false, c')
             /\ pos c' = 3%nat.
Proof.
  destruct (proj1 (someCount_zero (fun _ => true))
              (array_iterator [VNum 1; VNum 2]) [VNum 1; VNum 2] 3%nat
              (array_iterator_yields _) ltac:(simpl; lia))
    as (c' & E & Hp & _).
  exists c'. split; [exact E | exact Hp].
Defined.

(** ** [includes] *)

Lemma includes_S {St : Type} (next : St -> outcome (iterResult * St))
    f element s :
  includes next (S f) element s
  = let* '(r, s1) := next s in
    if done r then Ok (false, s1)
    else if strict_eq (value r) element || (isNaN (value r) && isNaN element)
         then Ok (true, s1)
         else includes next f element s1.
Proof. reflexivity. Qed.

(** What [includes] computes on a finite sequence: whether some value is
    [===] to the element, or [isNaN] holds of both after coercion. *)
Lemma includes_Iterator c l fuel element :
  yields c l -> (length l < fuel)%nat ->
  exists c', includes Iterator_next fuel element c
             = Ok (existsb (fun v => strict_eq v element
                                     || (isNaN v && isNaN element)) l, c').
Proof.
  revert c fuel. induction l as [|x l IH]; intros c fuel Hy Hf;
    (destruct fuel as [|f]; [simpl in Hf; lia|]);
    rewrite includes_S; unfold Iterator_next; cbn [bind].
  - destruct (yields_nil c Hy) as [Hr Hy'].
    rewrite (surjective_pairing (cursor_next c)), Hr. cbn.
    eexists. reflexivity.
  - destruct (yields_cons c x l Hy) as [Hr Hy'].
    rewrite (surjective_pairing (cursor_next c)), Hr. cbn [done value existsb].
    destruct (strict_eq x element || isNaN x && isNaN element).
    + eexists. reflexivity.
    + apply IH; [exact Hy' | simpl in Hf; lia].
Qed.

(** On numbers the coercion changes nothing: [includes] finds the element
    exactly when a value is [===] to it or both are [NaN]. *)
Lemma includes_numbers c l fuel element :
  yields c l -> (length l < fuel)%nat ->
  is_number element = true -> Forall (fun v => is_number v = true) l ->
  exists b c',
    includes Iterator_next fuel element c = Ok (b, c')
    /\ (b = true <->
        exists v, v ∈ l /\ (strict_eq v element = true
                            \/ (v = VNaN /\ element = VNaN))).
Proof.
  intros Hc Hf He Hl.
  destruct (includes_Iterator c l fuel element Hc Hf) as (c' & E).
  eexists _, c'. split; [exact E|].
  rewrite existsb_exists. split.
  - intros (v & Hin & Hv). exists v. split; [by apply list_elem_of_In|].
    apply orb_prop in Hv as [Hv|Hv]; [by left | right].
    apply andb_prop in Hv as [Hv1 Hv2].
    rewrite Forall_forall in Hl.
    specialize (Hl v (proj2 (list_elem_of_In _ _) Hin)).
    destruct v; try discriminate; destruct element; try discriminate; done.
  - intros (v & Hin & Hv). exists v. split; [by apply list_elem_of_In|].
    destruct Hv as [->|[-> ->]]; [reflexivity|]. apply orb_true_r.
Qed.

(** C2, the failing input: [iter([undefined]).includes(NaN)] returns
    [true], although [undefined] is not [===] to [NaN] and is not the
    not-a-number value: the global [isNaN] holds of [undefined] too. *)
Theorem includes_undefined_matches_NaN :
  (exists c', includes Iterator_next 2 VNaN (array_iterator [VUndefined])
              = Ok (true, c'))
  /\ strict_eq VUndefined VNaN = false
  /\ VUndefined <> VNaN.
Proof.
  split; [eexists; reflexivity|]. split; [reflexivity | discriminate].
Qed.

(** ** Permanence of exhaustion *)

(** An invariant that forces [next()] to report exhaustion and is kept by
    it makes exhaustion permanent. *)
Lemma stays_exhausted_invariant {St : Type}
    (next : St -> outcome (iterResult * St)) (I : St -> Prop) :
  (forall s, I s -> exists r s', next s = Ok (r, s') /\ done r = true /\ I s') ->
  forall s, I s -> stays_exhausted next s.
Proof.
  intros Hstep s Hs k. revert s Hs.
  induction k as [|k IH]; intros s Hs; cbn [nth_pull];
    destruct (Hstep s Hs) as (r & s' & E & Hd & Hs').
  - exists r, s'. by split.
  - rewrite E. cbn [bind]. by apply IH.
Qed.

(** *** Over an upstream that resumes, an adaptor that only delegates can
    resume *)

Lemma MapIterator_resumes :
  exists r1 it1 r2 it2,
    MapIterator_next (MapIterator_new resuming_cursor (fun v => v))
      = Ok (r1, it1)
    /\ done r1 = true
    /\ MapIterator_next it1 = Ok (r2, it2)
    /\ done r2 = false.
Proof. do 4 eexists. repeat split. Qed.

Lemma FilterIterator_resumes :
  exists r1 it1 r2 it2,
    FilterIterator_next 1 (FilterIterator_new resuming_cursor (fun _ => true))
      = Ok (r1, it1)
    /\ done r1 = true
    /\ FilterIterator_next 1 it1 = Ok (r2, it2)
    /\ done r2 = false.
Proof. do 4 eexists. repeat split. Qed.

Lemma FlatMapIterator_resumes :
  exists r1 it1 r2 it2,
    FlatMapIterator_next 1 (FlatMapIterator_new resuming_cursor (fun v => v))
      = Ok (r1, it1)
    /\ done r1 = true
    /\ FlatMapIterator_next 1 it1 = Ok (r2, it2)
    /\ done r2 = false.
Proof. do 4 eexists. repeat split. Qed.

Lemma TakeIterator_resumes :
  exists r1 it1 r2 it2,
    TakeIterator_next (TakeIterator_new resuming_cursor 5) = Ok (r1, it1)
    /\ done r1 = true
    /\ TakeIterator_next it1 = Ok (r2, it2)
    /\ done r2 = false.
Proof. do 4 eexists. repeat split. Qed.

Lemma ZipIterator_resumes :
  exists r1 it1 r2 it2,
    ZipIterator_next (MkZip resuming_cursor [] 0) = Ok (r1, it1)
    /\ done r1 = true
    /\ ZipIterator_next it1 = Ok (r2, it2)
    /\ done r2 = false.
Proof. do 4 eexists. repeat split. Qed.

Lemma JoinIterator_resumes :
  exists r1 it1 r2 it2,
    JoinIterator_next (MkJoin resuming_cursor []) = Ok (r1, it1)
    /\ done r1 = true
    /\ JoinIterator_next it1 = Ok (r2, it2)
    /\ done r2 = false.
Proof. do 4 eexists. repeat split. Qed.

(** Counterexample to C1 as stated: over an upstream that reports
    exhaustion and then produces the value 1, [map] reports exhaustion at
    its first [next()] and produces 1 at its second; so exhaustion of [map]
    is not permanent over every upstream cursor.  (The lemmas above give
    such a run for [filter], [flatMap], [take], [zip] and [join] as well.) *)
Lemma delegating_adaptors_resume :
  (exists r1 it1 r2 it2,
     MapIterator_next (MapIterator_new resuming_cursor (fun v => v))
       = Ok (r1, it1)
     /\ done r1 = true
     /\ MapIterator_next it1 = Ok (r2, it2)
     /\ done r2 = false /\ value r2 = VNum 1)
  /\ ~ (forall (it : MapIterator) r it',
          MapIterator_next it = Ok (r, it') -> done r = true ->
          stays_exhausted MapIterator_next it').
Proof.
  split; [do 4 eexists; repeat split|].
  intros H.
  destruct (H (MapIterator_new resuming_cursor (fun v => v)) finished
              (MkMap (snd (cursor_next resuming_cursor)) (fun v => v))
              eq_refl eq_refl 0%nat) as (r & s' & E & Hd).
  cbv in E. injection E as <- _. discriminate Hd.
Qed.

(** *** [takeWhile] and [flat] never resume *)

Lemma TakeWhileIterator_sticky it r it' :
  TakeWhileIterator_next it = Ok (r, it') -> done r = true ->
  stays_exhausted TakeWhileIterator_next it'.
Proof.
  intros E Hd.
  apply (stays_exhausted_invariant _ (fun s => takeWhile_done s = true)).
  - intros s Hs. exists finished, s. unfold TakeWhileIterator_next.
    rewrite Hs. by repeat split.
  - unfold TakeWhileIterator_next, Iterator_next in E.
    destruct (takeWhile_done it) eqn:Ed.
    + injection E as _ <-. exact Ed.
    + cbn [bind] in E.
      destruct (cursor_next (takeWhile_base it)) as [nx b].
      destruct (negb (done nx) && takeWhile_predicate it (value nx)) eqn:Ep;
        injection E as <- <-; [|reflexivity].
      apply andb_prop in Ep as [Ep _]. rewrite Hd in Ep. discriminate Ep.
Qed.

Lemma FlatIterator_done_depth fuel it r it' :
  FlatIterator_next fuel it = Ok (r, it') -> done r = true ->
  currentDepth it' < 0.
Proof.
  revert it. induction fuel as [|f IH]; intros it E Hd; [discriminate|].
  cbn [FlatIterator_next] in E.
  destruct (Z.ltb_spec (currentDepth it) 0) as [Hneg|Hpos].
  { injection E as _ <-. exact Hneg. }
  destruct (stack it !! Z.to_nat (currentDepth it)) as [[top|]|];
    try discriminate.
  unfold Iterator_next in E. cbn [bind] in E.
  destruct (cursor_next top) as [nx top1].
  destruct (done nx) eqn:Dn; [by eapply IH|].
  destruct (currentDepth it =? Z.of_nat (length (stack it)) - 1).
  - cbn [bind] in E. injection E as <- _. congruence.
  - destruct (iterator_method (value nx)) as [[c|]|e|]; cbn [bind] in E;
      try discriminate.
    + by eapply IH.
    + injection E as <- _. congruence.
Qed.

Lemma FlatIterator_sticky fuel it r it' :
  FlatIterator_next fuel it = Ok (r, it') -> done r = true ->
  forall fuel', stays_exhausted (FlatIterator_next (S fuel')) it'.
Proof.
  intros E Hd fuel'.
  apply (stays_exhausted_invariant _ (fun s => currentDepth s < 0)).
  - intros s Hs. exists finished, s. cbn [FlatIterator_next].
    destruct (Z.ltb_spec (currentDepth s) 0); [by repeat split | lia].
  - by eapply FlatIterator_done_depth.
Qed.

(** *** The delegating adaptors over upstreams whose exhaustion is permanent *)

Lemma MapIterator_permanent it r it' :
  permanent (map_base it) ->
  MapIterator_next it = Ok (r, it') -> done r = true ->
  stays_exhausted MapIterator_next it'.
Proof.
  intros Hp E Hd.
  apply (stays_exhausted_invariant _ (fun s => exhausted (map_base s))).
  - intros s Hs. destruct (exhausted_next _ Hs) as [H1 H2].
    unfold MapIterator_next, Iterator_next. cbn [bind].
    destruct (cursor_next (map_base s)) as [nx b]. cbn in *.
    eexists _, _. split; [reflexivity|]. by split.
  - unfold MapIterator_next, Iterator_next in E. cbn [bind] in E.
    pose proof (permanent_done_exhausted _ Hp) as Hx.
    destruct (cursor_next (map_base it)) as [nx b].
    injection E as <- <-. cbn in *. by apply Hx.
Qed.

Lemma FilterIterator_permanent fuel it r it' :
  permanent (filter_base it) ->
  FilterIterator_next fuel it = Ok (r, it') -> done r = true ->
  forall fuel', stays_exhausted (FilterIterator_next (S fuel')) it'.
Proof.
  intros Hp E Hd fuel'.
  apply (stays_exhausted_invariant _ (fun s => exhausted (filter_base s))).
  - intros s Hs. destruct (exhausted_next _ Hs) as [H1 H2].
    cbn [FilterIterator_next]. unfold Iterator_next. cbn [bind].
    destruct (cursor_next (filter_base s)) as [nx b]. cbn in *.
    rewrite H1. eexists _, _. split; [reflexivity|]. by split.
  - revert it Hp E. induction fuel as [|f IH]; intros it Hp E;
      [discriminate|].
    cbn [FilterIterator_next] in E. unfold Iterator_next in E.
    cbn [bind] in E.
    pose proof (permanent_done_exhausted _ Hp) as Hx.
    pose proof (permanent_next _ Hp) as Hn.
    destruct (cursor_next (filter_base it)) as [nx b]. cbn in *.
    destruct (done nx) eqn:Dn.
    + injection E as _ <-. by apply Hx.
    + destruct (filter_predicate it (value nx)).
      * injection E as <- _. discriminate Hd.
      * by apply (IH (MkFilter b (filter_predicate it))).
Qed.

Lemma TakeIterator_permanent it r it' :
  permanent (take_base it) ->
  TakeIterator_next it = Ok (r, it') -> done r = true ->
  stays_exhausted TakeIterator_next it'.
Proof.
  intros Hp E Hd.
  apply (stays_exhausted_invariant _
           (fun s => exhausted (take_base s) \/ amount s <= iterated s)).
  - intros s Hs. unfold TakeIterator_next, Iterator_next.
    destruct (Z.leb_spec (iterated s + 1) (amount s)) as [Hle|Hgt].
    + destruct Hs as [Hs|Hs]; [|lia].
      destruct (exhausted_next _ Hs) as [H1 H2]. cbn [bind].
      destruct (cursor_next (take_base s)) as [nx b]. cbn in *.
      eexists _, _. split; [reflexivity|]. split; [exact H1|by left].
    + eexists _, _. split; [reflexivity|]. split; [reflexivity|].
      right. cbn. lia.
  - unfold TakeIterator_next, Iterator_next in E.
    destruct (Z.leb_spec (iterated it + 1) (amount it)) as [Hle|Hgt].
    + cbn [bind] in E. pose proof (permanent_done_exhausted _ Hp) as Hx.
      destruct (cursor_next (take_base it)) as [nx b].
      injection E as <- <-. left. by apply Hx.
    + injection E as _ <-. right. cbn. lia.
Qed.

Lemma FlatMapIterator_done_state fuel it r it' :
  permanent (flatMap_base it) ->
  FlatMapIterator_next fuel it = Ok (r, it') -> done r = true ->
  exhausted (flatMap_base it') /\ currentIterator it' = None.
Proof.
  revert it. induction fuel as [|f IH]; intros it Hp E Hd; [discriminate|].
  cbn [FlatMapIterator_next] in E. unfold Iterator_next in E.
  destruct (currentIterator it) as [cur|]; cbn [bind] in E.
  - destruct (cursor_next cur) as [nx cur1].
    destruct (done nx) eqn:Dn.
    + by apply IH in E.
    + injection E as <- _. congruence.
  - pose proof (permanent_done_exhausted _ Hp) as Hx.
    pose proof (permanent_next _ Hp) as Hn.
    destruct (cursor_next (flatMap_base it)) as [nx b]. cbn in Hx, Hn.
    destruct (done nx) eqn:Dn; cbn [bind] in E.
    + injection E as _ <-. split; [by apply Hx | reflexivity].
    + destruct (flatMap_mapper it (value nx)) as [| |b0|n| |ref items];
        cbn in E; try discriminate;
        try (injection E as <- _; discriminate Hd).
      destruct (array_script items 0) as [d v] eqn:Es.
      destruct d.
      * by apply IH in E.
      * injection E as <- _. discriminate Hd.
Qed.

Lemma FlatMapIterator_permanent fuel it r it' :
  permanent (flatMap_base it) ->
  FlatMapIterator_next fuel it = Ok (r, it') -> done r = true ->
  forall fuel', stays_exhausted (FlatMapIterator_next (S fuel')) it'.
Proof.
  intros Hp E Hd fuel'.
  apply (stays_exhausted_invariant _
           (fun s => exhausted (flatMap_base s) /\ currentIterator s = None)).
  - intros s [Hs Hc]. destruct (exhausted_next _ Hs) as [H1 H2].
    cbn [FlatMapIterator_next]. unfold Iterator_next. rewrite Hc.
    cbn [bind].
    destruct (cursor_next (flatMap_base s)) as [nx b]. cbn in H1, H2.
    rewrite H1. cbn [bind].
    eexists _, _. split; [reflexivity|]. split; [exact H1|]. by split.
  - by eapply FlatMapIterator_done_state.
Qed.

Lemma zip_loop_done cs acc nx cs' :
  Forall permanent cs ->
  zip_loop cs acc = (inl nx, cs') ->
  done nx = true /\ Exists exhausted cs'.
Proof.
  revert acc cs'. induction cs as [|c cs IH]; intros acc cs' Hp E;
    [discriminate|].
  apply Forall_cons in Hp as [Hc Hp]. cbn [zip_loop] in E.
  pose proof (permanent_done_exhausted _ Hc) as Hx.
  destruct (cursor_next c) as [r c1]. cbn in Hx.
  destruct (done r) eqn:Dr.
  - injection E as <- <-. split; [exact Dr|]. left. by apply Hx.
  - destruct (zip_loop cs (acc ++ [value r])) as [res rest1] eqn:El.
    injection E as -> <-.
    destruct (IH _ _ Hp El) as [H1 H2]. split; [exact H1|]. by right.
Qed.

Lemma zip_loop_exhausted cs acc :
  Exists exhausted cs ->
  exists nx cs', zip_loop cs acc = (inl nx, cs')
                 /\ done nx = true /\ Exists exhausted cs'.
Proof.
  revert acc. induction cs as [|c cs IH]; intros acc Hx.
  { by apply Exists_nil in Hx. }
  cbn [zip_loop]. destruct (cursor_next c) as [r c1] eqn:Ec.
  destruct (done r) eqn:Dr.
  - eexists _, _. split; [reflexivity|]. split; [exact Dr|].
    apply Exists_cons in Hx as [Hx|Hx].
    + left. pose proof (proj2 (exhausted_next _ Hx)) as H.
      by rewrite Ec in H.
    + by right.
  - apply Exists_cons in Hx as [Hx|Hx].
    + pose proof (proj1 (exhausted_next _ Hx)) as H.
      rewrite Ec in H. cbn in H. congruence.
    + destruct (IH (acc ++ [value r]) Hx) as (nx & cs' & E & Hd & He).
      rewrite E. eexists _, _. split; [reflexivity|]. split; [exact Hd|].
      by right.
Qed.

Lemma ZipIterator_permanent it r it' :
  permanent (zip_base it) -> Forall permanent (zip_iterators it) ->
  ZipIterator_next it = Ok (r, it') -> done r = true ->
  stays_exhausted ZipIterator_next it'.
Proof.
  intros Hp Hps E Hd.
  apply (stays_exhausted_invariant _
           (fun s => exhausted (zip_base s)
                     \/ Exists exhausted (zip_iterators s))).
  - intros s Hs. unfold ZipIterator_next, Iterator_next. cbn [bind].
    destruct (cursor_next (zip_base s)) as [nx b] eqn:Eb.
    destruct (done nx) eqn:Dn.
    + eexists _, _. split; [reflexivity|]. split; [exact Dn|].
      destruct Hs as [Hs|Hs]; [|by right].
      left. pose proof (proj2 (exhausted_next _ Hs)) as H.
      by rewrite Eb in H.
    + destruct Hs as [Hs|Hs].
      { pose proof (proj1 (exhausted_next _ Hs)) as H.
        rewrite Eb in H. cbn in H. congruence. }
      destruct (zip_loop_exhausted _ [value nx] Hs) as (r1 & cs' & El & H1 & H2).
      rewrite El. eexists _, _. split; [reflexivity|]. split; [exact H1|].
      by right.
  - unfold ZipIterator_next, Iterator_next in E. cbn [bind] in E.
    pose proof (permanent_done_exhausted _ Hp) as Hx.
    destruct (cursor_next (zip_base it)) as [nx b]. cbn in Hx.
    destruct (done nx) eqn:Dn.
    + injection E as _ <-. left. by apply Hx.
    + destruct (zip_loop (zip_iterators it) [value nx]) as [[r1|res] cs] eqn:El;
        injection E as <- <-; [|discriminate Hd].
      right. by destruct (zip_loop_done _ _ _ _ Hps El).
Qed.

Lemma join_pull_done cur its r it' :
  permanent cur -> Forall permanent its ->
  join_pull cur its = (r, it') -> done r = true ->
  exhausted (join_current it') /\ join_iterators it' = [].
Proof.
  revert cur. induction its as [|c its IH]; intros cur Hp Hps E Hd;
    cbn [join_pull] in E;
    pose proof (permanent_done_exhausted _ Hp) as Hx;
    destruct (cursor_next cur) as [nx cur1]; cbn in Hx;
    destruct (done nx) eqn:Dn; cbn [negb] in E;
    try (injection E as <- _; congruence).
  - injection E as _ <-. split; [by apply Hx | reflexivity].
  - apply Forall_cons in Hps as [Hc Hps]. by eapply IH.
Qed.

Lemma JoinIterator_permanent it r it' :
  permanent (join_current it) -> Forall permanent (join_iterators it) ->
  JoinIterator_next it = Ok (r, it') -> done r = true ->
  stays_exhausted JoinIterator_next it'.
Proof.
  intros Hp Hps E Hd.
  apply (stays_exhausted_invariant _
           (fun s => exhausted (join_current s) /\ join_iterators s = [])).
  - intros s [Hs Hq]. destruct (exhausted_next _ Hs) as [H1 H2].
    unfold JoinIterator_next. rewrite Hq. cbn [join_pull].
    destruct (cursor_next (join_current s)) as [nx cur1]. cbn in H1, H2.
    rewrite H1. cbn [negb].
    eexists _, _. split; [reflexivity|]. split; [reflexivity|]. by split.
  - unfold JoinIterator_next in E. injection E as E.
    by eapply join_pull_done.
Qed.

(** C1, amended. Once [next()] of [takeWhile] or of [flat] has reported
    exhaustion, every later call reports exhaustion, whatever the upstream
    cursor does afterwards.  For [map], [filter], [flatMap], [take], [zip]
    and [join] the same holds when exhaustion of every upstream cursor is
    permanent. *)
Theorem exhaustion_is_permanent :
  (forall it r it',
     TakeWhileIterator_next it = Ok (r, it') -> done r = true ->
     stays_exhausted TakeWhileIterator_next it')
  /\ (forall fuel it r it',
        FlatIterator_next fuel it = Ok (r, it') -> done r = true ->
        forall fuel', stays_exhausted (FlatIterator_next (S fuel')) it')
  /\ (forall it r it',
        permanent (map_base it) ->
        MapIterator_next it = Ok (r, it') -> done r = true ->
        stays_exhausted MapIterator_next it')
  /\ (forall fuel it r it',
        permanent (filter_base it) ->
        FilterIterator_next fuel it = Ok (r, it') -> done r = true ->
        forall fuel', stays_exhausted (FilterIterator_next (S fuel')) it')
  /\ (forall fuel it r it',
        permanent (flatMap_base it) ->
        FlatMapIterator_next fuel it = Ok (r, it') -> done r = true ->
        forall fuel', stays_exhausted (FlatMapIterator_next (S fuel')) it')
  /\ (forall it r it',
        permanent (take_base it) ->
        TakeIterator_next it = Ok (r, it') -> done r = true ->
        stays_exhausted TakeIterator_next it')
  /\ (forall it r it',
        permanent (zip_base it) -> Forall permanent (zip_iterators it) ->
        ZipIterator_next it = Ok (r, it') -> done r = true ->
        stays_exhausted ZipIterator_next it')
  /\ (forall it r it',
        permanent (join_current it) -> Forall permanent (join_iterators it) ->
        JoinIterator_next it = Ok (r, it') -> done r = true ->
        stays_exhausted JoinIterator_next it').
Proof.
  repeat split.
  - exact TakeWhileIterator_sticky.
  - exact FlatIterator_sticky.
  - exact MapIterator_permanent.
  - exact FilterIterator_permanent.
  - exact FlatMapIterator_permanent.
  - exact TakeIterator_permanent.
  - exact ZipIterator_permanent.
  - exact JoinIterator_permanent.
Qed.

Lemma exhaustion_is_permanent_witness :
  stays_exhausted TakeWhileIterator_next
    (MkTakeWhile (snd (cursor_next resuming_cursor)) (fun _ => true) true)
  /\ stays_exhausted MapIterator_next
       (MkMap (snd (cursor_next (array_iterator []))) (fun v => v)).
Proof.
  destruct exhaustion_is_permanent as (Htw & _ & Hmap & _). split.
  - apply (Htw (TakeWhileIterator_new resuming_cursor (fun _ => true))
             finished); reflexivity.
  - apply (Hmap (MapIterator_new (array_iterator []) (fun v => v)) finished).
    + apply (yields_permanent _ []). apply array_iterator_yields.
    + reflexivity.
    + reflexivity.
Defined.

(** ** [zip] *)

Lemma yields_pull c l :
  yields c l ->
  fst (cursor_next c) = array_script l 0 /\ yields (advance c) (tail l).
Proof.
  intros H. destruct l as [|x l].
  - by apply yields_nil.
  - by apply yields_cons.
Qed.

(** The loop stops at the first exhausted cursor and returns its result;
    the cursors before it were advanced, those after it are untouched. *)
Lemma zip_loop_stops before c after acc :
  Forall (fun b => done (fst (cursor_next b)) = false) before ->
  done (fst (cursor_next c)) = true ->
  zip_loop (before ++ c :: after) acc
  = (inl (fst (cursor_next c)), (advance <$> before) ++ advance c :: after).
Proof.
  revert acc. induction before as [|b before IH]; intros acc Hb Hc;
    cbn [zip_loop app fmap list_fmap].
  - unfold advance. destruct (cursor_next c) as [nx c1]. cbn in *.
    by rewrite Hc.
  - apply Forall_cons in Hb as [Hb Hbs].
    unfold advance at 1. destruct (cursor_next b) as [nx b1]. cbn in *.
    rewrite Hb. by rewrite IH.
Qed.

(** When no cursor is exhausted the loop collects one value per cursor, in
    order, and advances every cursor. *)
Lemma zip_loop_collects cs acc :
  Forall (fun c => done (fst (cursor_next c)) = false) cs ->
  zip_loop cs acc
  = (inr (acc ++ ((fun c => value (fst (cursor_next c))) <$> cs)),
     advance <$> cs).
Proof.
  revert acc. induction cs as [|c cs IH]; intros acc Hcs;
    cbn [zip_loop fmap list_fmap].
  - by rewrite app_nil_r.
  - apply Forall_cons in Hcs as [Hc Hcs].
    unfold advance at 1. destruct (cursor_next c) as [nx c1]. cbn in *.
    rewrite Hc, IH by done. by rewrite <- app_assoc.
Qed.

Lemma zip_loop_result cs acc :
  match fst (zip_loop cs acc) with
  | inl nx => done nx = true
  | inr result =>
      Forall (fun c => done (fst (cursor_next c)) = false) cs
  end.
Proof.
  revert acc. induction cs as [|c cs IH]; intros acc; cbn [zip_loop].
  - constructor.
  - destruct (cursor_next c) as [nx c1] eqn:Ec.
    destruct (done nx) eqn:Dn; [exact Dn|].
    specialize (IH (acc ++ [value nx])).
    destruct (zip_loop cs (acc ++ [value nx])) as [[r|res] rest];
      cbn [fst] in *.
    + exact IH.
    + constructor; [by rewrite Ec | exact IH].
Qed.

(** A produced value is a fresh array of the values of the primary cursor
    and of the secondary cursors, in declared order. *)
Lemma ZipIterator_next_value it r it' :
  ZipIterator_next it = Ok (r, it') -> done r = false ->
  value r = VArr (zip_fresh it)
              ((fun c => value (fst (cursor_next c)))
                 <$> (zip_base it :: zip_iterators it))
  /\ Forall (fun c => done (fst (cursor_next c)) = false)
       (zip_base it :: zip_iterators it)
  /\ zip_base it' :: zip_iterators it'
     = advance <$> (zip_base it :: zip_iterators it).
Proof.
  intros E Hd. unfold ZipIterator_next, Iterator_next in E. cbn [bind] in E.
  destruct (cursor_next (zip_base it)) as [nx b] eqn:Eb.
  destruct (done nx) eqn:Dn; [injection E as <- _; congruence|].
  pose proof (zip_loop_result (zip_iterators it) [value nx]) as Hres.
  destruct (zip_loop (zip_iterators it) [value nx]) as [[r1|res] cs] eqn:El;
    cbn [fst] in Hres; injection E as <- <-; [congruence|].
  rewrite zip_loop_collects in El by done. injection El as <- <-.
  cbn [fmap list_fmap value zip_base zip_iterators].
  split; [by rewrite Eb|]. split.
  - constructor; [by rewrite Eb | done].
  - unfold advance. by rewrite Eb.
Qed.

(** On the call where a cursor is exhausted, [zip] reports exhaustion and
    does not pull from the cursors declared after it. *)
Lemma ZipIterator_next_stops it before c after :
  zip_base it :: zip_iterators it = before ++ c :: after ->
  Forall (fun b => done (fst (cursor_next b)) = false) before ->
  done (fst (cursor_next c)) = true ->
  exists r it',
    ZipIterator_next it = Ok (r, it') /\ done r = true
    /\ zip_base it' :: zip_iterators it'
       = (advance <$> before) ++ advance c :: after.
Proof.
  intros Hcs Hb Hc. unfold ZipIterator_next, Iterator_next. cbn [bind].
  destruct before as [|b before]; cbn [app] in Hcs; injection Hcs as Eb Ei.
  - subst c. unfold advance. destruct (cursor_next (zip_base it)) as [nx b].
    cbn in *. rewrite Hc. eexists _, _. split; [reflexivity|].
    split; [exact Hc|]. cbn. by rewrite Ei.
  - subst b. apply Forall_cons in Hb as [Hb Hbs].
    unfold advance. cbn [fmap list_fmap].
    destruct (cursor_next (zip_base it)) as [nx b]. cbn in *.
    rewrite Hb, Ei, zip_loop_stops by done.
    eexists _, _. split; [reflexivity|]. split; [exact Hc|]. reflexivity.
Qed.

Lemma ZipIterator_next_all it :
  Forall (fun c => done (fst (cursor_next c)) = false)
    (zip_base it :: zip_iterators it) ->
  ZipIterator_next it
  = Ok (IterResult false
          (VArr (zip_fresh it)
             ((fun c => value (fst (cursor_next c)))
                <$> (zip_base it :: zip_iterators it))),
        MkZip (advance (zip_base it)) (advance <$> zip_iterators it)
          (S (zip_fresh it))).
Proof.
  intros H. apply Forall_cons in H as [Hb Hi].
  unfold ZipIterator_next, Iterator_next, advance. cbn [bind].
  rewrite (surjective_pairing (cursor_next (zip_base it))).
  rewrite Hb, zip_loop_collects by done. reflexivity.
Qed.

Lemma ZipIterator_next_some_done it :
  Exists (fun c => done (fst (cursor_next c)) = true)
    (zip_base it :: zip_iterators it) ->
  exists r it', ZipIterator_next it = Ok (r, it') /\ done r = true.
Proof.
  intros Hex.
  assert (exists r it', ZipIterator_next it = Ok (r, it')) as (r & it' & E).
  { unfold ZipIterator_next, Iterator_next. cbn [bind].
    destruct (cursor_next (zip_base it)) as [nx b].
    destruct (done nx); [by eexists _, _|].
    destruct (zip_loop (zip_iterators it) [value nx]) as [[r1|res] cs];
      by eexists _, _. }
  exists r, it'. split; [exact E|].
  destruct (done r) eqn:Dr; [reflexivity|].
  destruct (ZipIterator_next_value _ _ _ E Dr) as (_ & Hall & _).
  apply Exists_exists in Hex as (c & Hin & Hc).
  rewrite Forall_forall in Hall. specialize (Hall c Hin). congruence.
Qed.

Lemma yields_column cs ls :
  Forall2 yields cs ls ->
  (fun c => value (fst (cursor_next c))) <$> cs = column ls 0.
Proof.
  induction 1 as [|c l cs ls Hy _ IH]; [reflexivity|].
  unfold column in *. cbn [fmap list_fmap]. rewrite IH. f_equal.
  destruct (yields_pull c l Hy) as [-> _]. by destruct l.
Qed.

Lemma yields_advance cs ls :
  Forall2 yields cs ls -> Forall2 yields (advance <$> cs) (tail <$> ls).
Proof.
  induction 1 as [|c l cs ls Hy _ IH]; constructor; [|exact IH].
  by apply yields_pull.
Qed.

Lemma yields_nonempty cs ls :
  Forall2 yields cs ls -> Forall (fun l => l <> []) ls ->
  Forall (fun c => done (fst (cursor_next c)) = false) cs.
Proof.
  induction 1 as [|c l cs ls Hy _ IH]; intros Hne; constructor;
    apply Forall_cons in Hne as [Hl Hne]; [|by apply IH].
  destruct (yields_pull c l Hy) as [-> _]. by destruct l.
Qed.

Lemma yields_some_empty cs ls :
  Forall2 yields cs ls -> Exists (fun l => l = []) ls ->
  Exists (fun c => done (fst (cursor_next c)) = true) cs.
Proof.
  induction 1 as [|c l cs ls Hy _ IH]; intros Hex.
  { by apply Exists_nil in Hex. }
  apply Exists_cons in Hex as [->|Hex]; [left|right; by apply IH].
  by destruct (yields_pull c [] Hy) as [-> _].
Qed.

Lemma min_length_S xs yss n :
  min_length xs yss = S n ->
  Forall (fun l => l <> []) (xs :: yss)
  /\ min_length (tail xs) (tail <$> yss) = n.
Proof.
  unfold min_length. revert n. induction yss as [|ys yss IH]; intros n H;
    cbn [fmap list_fmap foldr] in *.
  - destruct xs; [discriminate|]. split; [by repeat constructor|].
    cbn in *. lia.
  - destruct ys as [|y ys]; [discriminate|]. cbn [length tail] in *.
    destruct (foldr Nat.min (length xs) (length <$> yss)) as [|m] eqn:Em;
      [lia|].
    destruct (IH m eq_refl) as [Hne Hm]. split.
    + apply Forall_cons in Hne as [Hx Hne]. by repeat constructor.
    + rewrite Hm. lia.
Qed.

Lemma min_length_0 xs yss :
  min_length xs yss = 0%nat -> Exists (fun l => l = []) (xs :: yss).
Proof.
  unfold min_length. induction yss as [|ys yss IH]; intros H;
    cbn [fmap list_fmap foldr] in *.
  - left. by destruct xs.
  - destruct ys as [|y ys]; [by right; left|].
    destruct (foldr Nat.min (length xs) (length <$> yss)) as [|m] eqn:Em;
      [|cbn in H; lia].
    apply Exists_cons in IH as [Hx|Hex]; [by left | by right; right | done].
Qed.

Lemma column_tail ls i : column (tail <$> ls) i = column ls (S i).
Proof.
  unfold column. rewrite <- list_fmap_compose. apply list_fmap_ext.
  intros _ l _. destruct l; [by destruct i | reflexivity].
Qed.

(** Zipping finite sequences gives one array per index below the length of
    the shortest one; the array at index [i] holds the values at index [i]
    of the sequences, in declared order. *)
Lemma toArray_ZipIterator n c cs xs yss fresh fuel :
  yields c xs -> Forall2 yields cs yss ->
  min_length xs yss = n -> (n < fuel)%nat ->
  exists it',
    toArray ZipIterator_next fuel (MkZip c cs fresh)
    = Ok ((fun i => VArr (fresh + i) (column (xs :: yss) i)) <$> seq 0 n, it').
Proof.
  revert c cs xs yss fresh fuel.
  induction n as [|n IH]; intros c cs xs yss fresh fuel Hc Hcs Hn Hf;
    (destruct fuel as [|f]; [lia|]); rewrite toArray_S;
    assert (Hall : Forall2 yields (c :: cs) (xs :: yss)) by (by constructor).
  - apply min_length_0 in Hn.
    destruct (ZipIterator_next_some_done (MkZip c cs fresh)
                (yields_some_empty _ _ Hall Hn)) as (r & it' & E & Hd).
    rewrite E. cbn [bind]. rewrite Hd. by eexists.
  - apply min_length_S in Hn as [Hne Hn].
    rewrite ZipIterator_next_all by (by eapply yields_nonempty).
    cbn [bind done value zip_base zip_iterators zip_fresh].
    destruct (IH (advance c) (advance <$> cs) (tail xs) (tail <$> yss)
                (S fresh) f) as (it' & E).
    { by apply yields_pull. }
    { by apply yields_advance. }
    { exact Hn. }
    { lia. }
    rewrite E. cbn [bind]. exists it'. f_equal. f_equal.
    cbn [seq fmap list_fmap]. f_equal.
    + rewrite Nat.add_0_r. f_equal. by apply (yields_column (c :: cs)).
    + rewrite <- fmap_S_seq, <- list_fmap_compose. apply list_fmap_ext.
      intros _ i _. unfold compose. f_equal; [lia|].
      change (tail xs :: (tail <$> yss)) with (tail <$> (xs :: yss)).
      apply column_tail.
Qed.

Lemma map_toIterator_arrays (arrs : list (nat * list jsvalue)) :
  map_toIterator ((fun a => FromValue (VArr (fst a) (snd a))) <$> arrs)
  = Ok ((fun a => array_iterator (snd a)) <$> arrs).
Proof.
  induction arrs as [|[ref ys] arrs IH]; [reflexivity|].
  cbn [fmap list_fmap map_toIterator]. cbn [fmap] in IH. rewrite IH.
  reflexivity.
Qed.

(** C8. For [zip] over a primary and any number of secondary sequences:
    (1) a produced value is an array of the values pulled from the primary
    cursor and from the secondary cursors, in declared order, every cursor
    having been advanced once; (2) over finite sequences the output has as
    many entries as the shortest input, entry [i] holding the values at
    index [i] of the inputs; (3) on the call where a cursor is exhausted
    while those declared before it are not, [zip] reports exhaustion, and
    the cursors declared after it are left as they were. *)
Theorem zip_lockstep :
  (forall it r it',
     ZipIterator_next it = Ok (r, it') -> done r = false ->
     value r = VArr (zip_fresh it)
                 ((fun c => value (fst (cursor_next c)))
                    <$> (zip_base it :: zip_iterators it))
     /\ Forall (fun c => done (fst (cursor_next c)) = false)
          (zip_base it :: zip_iterators it)
     /\ zip_base it' :: zip_iterators it'
        = advance <$> (zip_base it :: zip_iterators it))
  /\ (forall c xs (arrs : list (nat * list jsvalue)) fresh fuel,
        yields c xs -> (min_length xs (snd <$> arrs) < fuel)%nat ->
        exists it it',
          ZipIterator_new c
            ((fun a => FromValue (VArr (fst a) (snd a))) <$> arrs) fresh
          = Ok it
          /\ toArray ZipIterator_next fuel it
             = Ok ((fun i => VArr (fresh + i) (column (xs :: (snd <$> arrs)) i))
                     <$> seq 0 (min_length xs (snd <$> arrs)), it')
          /\ length ((fun i => VArr (fresh + i)
                                 (column (xs :: (snd <$> arrs)) i))
                       <$> seq 0 (min_length xs (snd <$> arrs)))
             = min_length xs (snd <$> arrs))
  /\ (forall it before c after,
        zip_base it :: zip_iterators it = before ++ c :: after ->
        Forall (fun b => done (fst (cursor_next b)) = false) before ->
        done (fst (cursor_next c)) = true ->
        exists r it',
          ZipIterator_next it = Ok (r, it') /\ done r = true
          /\ zip_base it' :: zip_iterators it'
             = (advance <$> before) ++ advance c :: after).
Proof.
  split; [exact ZipIterator_next_value|]. split;
    [|exact ZipIterator_next_stops].
  intros c xs arrs fresh fuel Hc Hf.
  unfold ZipIterator_new. rewrite map_toIterator_arrays. cbn [bind].
  destruct (toArray_ZipIterator (min_length xs (snd <$> arrs)) c
              ((fun a => array_iterator (snd a)) <$> arrs) xs (snd <$> arrs)
              fresh fuel Hc) as (it' & E); [|reflexivity|exact Hf|].
  - apply Forall2_fmap, Forall_Forall2_diag, Forall_forall.
    intros a _. apply array_iterator_yields.
  - eexists _, it'. split; [reflexivity|]. split; [exact E|].
    by rewrite length_fmap, length_seq.
Qed.

Lemma zip_lockstep_witness :
  exists it it',
    ZipIterator_new (array_iterator [VNum 1; VNum 2; VNum 3])
      [FromValue (VArr 0 [VNum 10; VNum 20])] 1
    = Ok it
    /\ toArray ZipIterator_next 3 it
       = Ok ([VArr 1 [VNum 1; VNum 10]; VArr 2 [VNum 2; VNum 20]], it').
Proof.
  destruct (proj1 (proj2 zip_lockstep)
              (array_iterator [VNum 1; VNum 2; VNum 3])
              [VNum 1; VNum 2; VNum 3] [(0%nat, [VNum 10; VNum 20])]
              1%nat 3%nat (array_iterator_yields _)
              ltac:(vm_compute; lia))
    as (it & it' & E1 & E2 & _).
  exists it, it'. split; [exact E1 | exact E2].
Defined.

(** ** [join] *)

(** Counterexample to C3 as stated: the queued sequences are converted when
    the [JoinIterator] is built, not when the current cursor is exhausted.
    Right after construction, and before any [next()], the queue holds the
    cursor of the queued array; and a queued value that is not iterable makes
    the constructor itself throw, while the primary sequence still has a
    value to give. *)
Lemma join_converts_at_construction :
  JoinIterator_new (array_iterator [VNum 1]) [FromValue (VArr 0 [VNum 2])]
  = Ok (MkJoin (array_iterator [VNum 1]) [array_iterator [VNum 2]])
  /\ JoinIterator_new (array_iterator [VNum 1]) [FromValue (VNum 5)]
     = Throw NotIterable.
Proof. split; reflexivity. Qed.

(** While the current cursor has values, [next()] returns them and leaves
    the queue alone. *)
Lemma JoinIterator_next_current it :
  done (fst (cursor_next (join_current it))) = false ->
  JoinIterator_next it
  = Ok (fst (cursor_next (join_current it)),
        MkJoin (advance (join_current it)) (join_iterators it)).
Proof.
  intros H. unfold JoinIterator_next, advance.
  destruct it as [cur its]. cbn [join_current join_iterators] in *.
  destruct its; cbn [join_pull];
    rewrite (surjective_pairing (cursor_next cur)), H; reflexivity.
Qed.

(** When the current cursor is exhausted, [next()] goes on with the first
    queued cursor, and the exhausted one is dropped. *)
Lemma JoinIterator_next_switch cur c rest :
  done (fst (cursor_next cur)) = true ->
  JoinIterator_next (MkJoin cur (c :: rest))
  = JoinIterator_next (MkJoin c rest).
Proof.
  intros H. unfold JoinIterator_next.
  cbn [join_current join_iterators]. f_equal.
  destruct rest; cbn [join_pull];
    rewrite (surjective_pairing (cursor_next cur)), H; reflexivity.
Qed.

Lemma JoinIterator_next_end cur :
  done (fst (cursor_next cur)) = true ->
  JoinIterator_next (MkJoin cur []) = Ok (finished, MkJoin (advance cur) []).
Proof.
  intros H. unfold JoinIterator_next, advance. cbn [join_pull join_current
    join_iterators].
  rewrite (surjective_pairing (cursor_next cur)), H. reflexivity.
Qed.

Lemma toArray_JoinIterator c cs xs yss fuel :
  yields c xs -> Forall2 yields cs yss ->
  (length (xs ++ concat yss) < fuel)%nat ->
  exists it',
    toArray JoinIterator_next fuel (MkJoin c cs) = Ok (xs ++ concat yss, it').
Proof.
  intros Hc Hcs. revert c xs fuel Hc.
  induction Hcs as [|c1 ys cs yss Hc1 Hcs IH]; intros c xs; revert c;
    induction xs as [|x xs IHxs]; intros c fuel Hc Hf;
    (destruct fuel as [|f]; [cbn in Hf; lia|]).
  - rewrite toArray_S, JoinIterator_next_end.
    + by eexists.
    + by destruct (yields_pull c [] Hc) as [-> _].
  - rewrite toArray_S, JoinIterator_next_current;
      cbn [join_current join_iterators];
      destruct (yields_cons c x xs Hc) as [-> Hc']; [|reflexivity].
    cbn [bind done value].
    destruct (IHxs _ f Hc') as (it' & E); [cbn [app length] in Hf; lia|].
    unfold advance. rewrite E. by eexists.
  - rewrite toArray_S, JoinIterator_next_switch.
    + rewrite <- toArray_S. apply (IH c1 ys (S f) Hc1). exact Hf.
    + by destruct (yields_pull c [] Hc) as [-> _].
  - rewrite toArray_S, JoinIterator_next_current;
      cbn [join_current join_iterators];
      destruct (yields_cons c x xs Hc) as [-> Hc']; [|reflexivity].
    cbn [bind done value].
    destruct (IHxs _ f Hc') as (it' & E); [cbn [app length] in Hf; lia|].
    unfold advance. rewrite E. by eexists.
Qed.

(** C3, amended. For [join] over a primary sequence and a declared list of
    further sequences: every queued sequence is converted into a cursor when
    the [JoinIterator] is constructed, in declared order, each cursor at its
    start; [next()] pulls from the current cursor only, and takes the next
    queued cursor only when the current one is exhausted; so the sequences
    are consumed in declared order, each fully drained before the next
    begins. *)
Theorem join_in_declared_order :
  (forall c (arrs : list (nat * list jsvalue)),
     JoinIterator_new c ((fun a => FromValue (VArr (fst a) (snd a))) <$> arrs)
     = Ok (MkJoin c ((fun a => array_iterator (snd a)) <$> arrs)))
  /\ (forall it,
        done (fst (cursor_next (join_current it))) = false ->
        JoinIterator_next it
        = Ok (fst (cursor_next (join_current it)),
              MkJoin (advance (join_current it)) (join_iterators it)))
  /\ (forall cur c rest,
        done (fst (cursor_next cur)) = true ->
        JoinIterator_next (MkJoin cur (c :: rest))
        = JoinIterator_next (MkJoin c rest))
  /\ (forall c xs (arrs : list (nat * list jsvalue)) fuel,
        yields c xs ->
        (length (xs ++ concat (snd <$> arrs)) < fuel)%nat ->
        exists it it',
          JoinIterator_new c
            ((fun a => FromValue (VArr (fst a) (snd a))) <$> arrs)
          = Ok it
          /\ toArray JoinIterator_next fuel it
             = Ok (xs ++ concat (snd <$> arrs), it')).
Proof.
  assert (Hnew : forall c (arrs : list (nat * list jsvalue)),
     JoinIterator_new c ((fun a => FromValue (VArr (fst a) (snd a))) <$> arrs)
     = Ok (MkJoin c ((fun a => array_iterator (snd a)) <$> arrs))).
  { intros c arrs. unfold JoinIterator_new.
    by rewrite map_toIterator_arrays. }
  split; [exact Hnew|].
  split; [exact JoinIterator_next_current|].
  split; [exact JoinIterator_next_switch|].
  intros c xs arrs fuel Hc Hf. rewrite Hnew.
  destruct (toArray_JoinIterator c
              ((fun a => array_iterator (snd a)) <$> arrs) xs (snd <$> arrs)
              fuel Hc) as (it' & E); [|exact Hf|].
  - apply Forall2_fmap, Forall_Forall2_diag, Forall_forall.
    intros a _. apply array_iterator_yields.
  - by eexists _, it'.
Qed.

Lemma join_in_declared_order_witness :
  exists it it',
    JoinIterator_new (array_iterator [VNum 1; VNum 2])
      [FromValue (VArr 0 []); FromValue (VArr 1 [VNum 3])]
    = Ok it
    /\ toArray JoinIterator_next 4 it = Ok ([VNum 1; VNum 2; VNum 3], it').
Proof.
  destruct (proj2 (proj2 (proj2 join_in_declared_order))
              (array_iterator [VNum 1; VNum 2]) [VNum 1; VNum 2]
              [(0%nat, []); (1%nat, [VNum 3])] 4%nat
              (array_iterator_yields _) ltac:(vm_compute; lia))
    as (it & it' & E1 & E2).
  exists it, it'. split; [exact E1 | exact E2].
Defined.

(** ** [flatMap]: the fuel of [next()] *)

Lemma FlatMapIterator_next_S f it :
  FlatMapIterator_next (S f) it
  = let mapper := flatMap_mapper it in
    let* step :=
      match currentIterator it with
      | Some cur => Ok (inr (cur, flatMap_base it))
      | None =>
          let* '(nx, b) := Iterator_next (flatMap_base it) in
          if done nx then Ok (inl (nx, MkFlatMap b mapper None))
          else
            let v := mapper (value nx) in
            let* m := iterator_method v in
            match m with
            | None => Ok (inl (IterResult false v, MkFlatMap b mapper None))
            | Some _ =>
                let* cur := toIterator (FromValue v) in Ok (inr (cur, b))
            end
      end in
    match step with
    | inl ret => Ok ret
    | inr (cur, b) =>
        let* '(nx, cur1) := Iterator_next cur in
        if done nx then FlatMapIterator_next f (MkFlatMap b mapper None)
        else Ok (nx, MkFlatMap b mapper (Some cur1))
    end.
Proof. reflexivity. Qed.

(** A value mapped to an empty array costs one unit of fuel: the call that
    pulls it calls [next()] again, with the upstream advanced by one. *)
Lemma FlatMapIterator_next_empty mapper c x l ref f :
  yields c (x :: l) -> mapper x = VArr ref [] ->
  FlatMapIterator_next (S f) (MkFlatMap c mapper None)
  = FlatMapIterator_next f (MkFlatMap (advance c) mapper None).
Proof.
  intros Hc Hm. rewrite FlatMapIterator_next_S.
  cbn [flatMap_mapper flatMap_base currentIterator].
  unfold Iterator_next at 1, advance. cbn [bind].
  destruct (yields_cons c x l Hc) as [Hr _].
  rewrite (surjective_pairing (cursor_next c)), Hr.
  cbn [done value]. rewrite Hm. reflexivity.
Qed.

(** With no more fuel than there are leading values mapped to empty arrays,
    the model of [next()] runs out of fuel. *)
Lemma FlatMapIterator_next_starves mapper xs : forall c l fuel,
  yields c (xs ++ l) ->
  Forall (fun x => exists ref, mapper x = VArr ref []) xs ->
  (fuel <= length xs)%nat ->
  FlatMapIterator_next fuel (MkFlatMap c mapper None) = OutOfFuel.
Proof.
  induction xs as [|x xs IH]; intros c l fuel Hc Hxs Hf;
    (destruct fuel as [|f]; [reflexivity|]); [cbn in Hf; lia|].
  apply Forall_cons in Hxs as [[ref Hx] Hxs].
  rewrite (FlatMapIterator_next_empty mapper c x (xs ++ l) ref) by done.
  apply (IH _ l); [|done|cbn in Hf; lia].
  by apply (yields_cons c x).
Qed.

(** With one unit of fuel more, it goes past them. *)
Lemma FlatMapIterator_next_skips mapper xs : forall c l fuel,
  yields c (xs ++ l) ->
  Forall (fun x => exists ref, mapper x = VArr ref []) xs ->
  exists c',
    yields c' l /\ pos c' = (pos c + length xs)%nat
    /\ FlatMapIterator_next (length xs + fuel) (MkFlatMap c mapper None)
       = FlatMapIterator_next fuel (MkFlatMap c' mapper None).
Proof.
  induction xs as [|x xs IH]; intros c l fuel Hc Hxs.
  - exists c. split; [exact Hc|]. split; [cbn; lia | reflexivity].
  - apply Forall_cons in Hxs as [[ref Hx] Hxs].
    destruct (IH (advance c) l fuel) as (c' & Hc' & Hp & E);
      [by apply (yields_cons c x) | done |].
    exists c'. split; [exact Hc'|]. split; [rewrite Hp; cbn; lia|].
    cbn [length Nat.add].
    by rewrite (FlatMapIterator_next_empty mapper c x (xs ++ l) ref).
Qed.

(** ** [flat] *)

Lemma FlatIterator_next_S f it :
  FlatIterator_next (S f) it
  = if currentDepth it <? 0 then Ok (finished, it)
    else
      let d := Z.to_nat (currentDepth it) in
      match stack it !! d with
      | Some (Some top) =>
          let* '(nx, top1) := Iterator_next top in
          let stack1 := <[d := Some top1]> (stack it) in
          if done nx then
            FlatIterator_next f
              (MkFlat (currentDepth it - 1) (<[d := None]> stack1))
          else
            let* sub :=
              if currentDepth it =? Z.of_nat (length (stack it)) - 1
              then Ok None
              else iterator_method (value nx) in
            match sub with
            | None => Ok (nx, MkFlat (currentDepth it) stack1)
            | Some c =>
                FlatIterator_next f
                  (MkFlat (currentDepth it + 1)
                     (<[Z.to_nat (currentDepth it + 1) := Some c]> stack1))
            end
      | _ => Throw NullishAccess
      end.
Proof. reflexivity. Qed.

(** One turn of the loop when slot [d] is the current one and holds a
    cursor. *)
Lemma FlatIterator_next_turn f it (d : nat) top :
  currentDepth it = Z.of_nat d -> stack it !! d = Some (Some top) ->
  FlatIterator_next (S f) it
  = let stack1 := <[d := Some (advance top)]> (stack it) in
    if done (fst (cursor_next top)) then
      FlatIterator_next f (MkFlat (Z.of_nat d - 1) (<[d := None]> stack1))
    else
      let* sub :=
        if (S d =? length (stack it))%nat then Ok None
        else iterator_method (value (fst (cursor_next top))) in
      match sub with
      | None => Ok (fst (cursor_next top), MkFlat (Z.of_nat d) stack1)
      | Some c =>
          FlatIterator_next f
            (MkFlat (Z.of_nat (S d)) (<[S d := Some c]> stack1))
      end.
Proof.
  intros Hd Htop. rewrite FlatIterator_next_S, Hd.
  destruct (Z.ltb_spec (Z.of_nat d) 0) as [?|_]; [lia|].
  cbn zeta. rewrite Nat2Z.id, Htop. unfold Iterator_next, advance.
  cbn [bind].
  destruct (cursor_next top) as [nx top1]. cbn [fst snd].
  destruct (done nx); [reflexivity|].
  replace (Z.of_nat d =? Z.of_nat (length (stack it)) - 1)
    with (S d =? length (stack it))%nat.
  - replace (Z.of_nat d + 1) with (Z.of_nat (S d)) by lia.
    by rewrite Nat2Z.id.
  - destruct (Nat.eqb_spec (S d) (length (stack it))) as [E|E];
      symmetry; [apply Z.eqb_eq | apply Z.eqb_neq]; lia.
Qed.

Lemma FlatIterator_next_finished f stk :
  FlatIterator_next (S f) (MkFlat (-1) stk) = Ok (finished, MkFlat (-1) stk).
Proof. reflexivity. Qed.

(** [flat(0)] is the identity, whatever the values are: at the last stack
    position a value is returned without being probed. *)
Lemma FlatIterator_depth0_identity c l F fuel :
  yields c l -> (length l < fuel)%nat ->
  exists it',
    toArray (FlatIterator_next (S (S F))) fuel (FlatIterator_new c 0)
    = Ok (l, it').
Proof.
  change (FlatIterator_new c 0) with (MkFlat 0 [Some c]).
  revert c fuel. induction l as [|x l IH]; intros c fuel Hc Hf;
    (destruct fuel as [|f]; [cbn in Hf; lia|]);
    rewrite toArray_S, (FlatIterator_next_turn _ _ 0 c) by reflexivity;
    cbn [stack length Nat.eqb insert list_insert].
  - destruct (yields_nil c Hc) as [-> _]. cbn [done finished].
    change (Z.of_nat 0 - 1) with (-1).
    rewrite FlatIterator_next_finished. by eexists.
  - destruct (yields_cons c x l Hc) as [-> Hc']. cbn [bind done value].
    destruct (IH _ f Hc') as (it' & E); [cbn in Hf; lia|].
    change (Z.of_nat 0) with 0. unfold advance. rewrite E. by eexists.
Qed.

(** One call of [next()] in [flat(1)]: it returns the first value still to
    be produced, or the exhaustion signal when there is none. *)
Lemma flat1_next k : forall st out m,
  flat1_state st out m -> (m <= k)%nat ->
  exists st' m',
    FlatIterator_next k st = Ok (array_script out 0, st')
    /\ flat1_state st' (tail out) m' /\ (m' <= m)%nat.
Proof.
  induction k as [|k IH]; intros st out m Hst Hk.
  { inversion Hst; subst; lia. }
  inversion Hst as [c s1 l Hc Hl | c ci l li Hc Hl Hci | stk]; subst.
  - rewrite (FlatIterator_next_turn _ _ 0 c) by reflexivity.
    cbn [stack length Nat.eqb insert list_insert].
    destruct l as [|v l].
    + destruct (yields_nil c Hc) as [-> _]. cbn [done finished].
      change (Z.of_nat 0 - 1) with (-1).
      destruct k as [|k]; [cbn in Hk; lia|].
      rewrite FlatIterator_next_finished.
      eexists _, 1%nat. split; [reflexivity|]. split; [constructor | lia].
    + destruct (yields_cons c v l Hc) as [-> Hc'].
      apply Forall_cons in Hl as [Hv Hl]. cbn [done value].
      destruct v as [| |b|n| |ref items]; try discriminate Hv;
        cbn [iterator_method bind].
      1-3: eexists _, (2 * length l + 2)%nat;
        (split; [reflexivity|]); split;
        [by apply (Flat1_outer (advance c)) | cbn [length]; lia].
      destruct (IH _ _ _ (Flat1_inner (advance c) (array_iterator items)
                            l items Hc' Hl (array_iterator_yields _)))
        as (st' & m' & E & Hst' & Hm'); [cbn [length] in Hk; lia|].
      exists st', m'. split; [exact E|]. split; [exact Hst'|].
      cbn [length]. lia.
  - rewrite (FlatIterator_next_turn _ _ 1 ci) by reflexivity.
    cbn [stack length Nat.eqb insert list_insert].
    destruct li as [|y li].
    + destruct (yields_nil ci Hci) as [-> _]. cbn [done finished].
      destruct (IH _ _ _ (Flat1_outer c None l Hc Hl))
        as (st' & m' & E & Hst' & Hm'); [lia|].
      exists st', m'. split; [exact E|]. split; [exact Hst' | lia].
    + destruct (yields_cons ci y li Hci) as [-> Hci'].
      cbn [done value bind].
      eexists _, (2 * length l + 3)%nat. split; [reflexivity|].
      split; [by apply (Flat1_inner c (advance ci)) | lia].
  - rewrite FlatIterator_next_finished.
    eexists _, 1%nat. split; [reflexivity|]. split; [constructor | lia].
Qed.

Lemma toArray_flat1 F out : forall st m fuel,
  flat1_state st out m -> (m <= F)%nat -> (length out < fuel)%nat ->
  exists it', toArray (FlatIterator_next F) fuel st = Ok (out, it').
Proof.
  induction out as [|y out IH]; intros st m fuel Hst Hm Hf;
    (destruct fuel as [|f]; [cbn in Hf; lia|]);
    destruct (flat1_next F st _ m Hst Hm) as (st' & m' & E & Hst' & Hm');
    rewrite toArray_S, E; cbn [bind array_script lookup list_lookup done
      value finished].
  - by eexists.
  - destruct (IH st' m' f Hst') as (it' & E'); [lia | cbn in Hf; lia|].
    rewrite E'. by eexists.
Qed.

(** [flat(1)] flattens exactly one level, and leaves what is nested deeper
    as it is, when no top-level value is [undefined] or [null]. *)
Lemma FlatIterator_depth1_one_level c l F fuel :
  yields c l -> Forall (fun v => nullish v = false) l ->
  (2 * length l + 2 <= F)%nat -> (length (flatten_one l) < fuel)%nat ->
  exists it',
    toArray (FlatIterator_next F) fuel (FlatIterator_new c 1)
    = Ok (flatten_one l, it').
Proof.
  intros Hc Hl HF Hf.
  apply (toArray_flat1 F (flatten_one l) _ (2 * length l + 2)); try done.
  by apply (Flat1_outer c None).
Qed.

(** C4, the failing input: [iter([1, undefined]).flat(1)] does not pass the
    leaf [undefined] through; the probe [next.value[Symbol.iterator]] throws
    when the second value is pulled.  The same happens for a [null] leaf one
    level down with [flat(2)].  A leaf at the last stack position is not
    probed: [iter([[undefined]]).flat(1)] produces [undefined]. *)
Theorem flat_nullish_leaf_throws :
  FlatIterator_next 2
    (FlatIterator_new (array_iterator [VUndefined]) 1)
  = Throw NullishAccess
  /\ toArray (FlatIterator_next 4) 4
       (FlatIterator_new (array_iterator [VNum 1; VUndefined]) 1)
     = Throw NullishAccess
  /\ toArray (FlatIterator_next 4) 4
       (FlatIterator_new (array_iterator [VArr 0 [VNull]]) 2)
     = Throw NullishAccess
  /\ exists it',
       toArray (FlatIterator_next 4) 4
         (FlatIterator_new (array_iterator [VArr 0 [VUndefined]]) 1)
       = Ok ([VUndefined], it').
Proof.
  split; [reflexivity|]. split; [reflexivity|]. split; [reflexivity|].
  eexists. reflexivity.
Qed.

(** * Further properties of the consumers *)

(** ** Sequences seen through any [next()] *)

Lemma yields_produces c l : yields c l -> produces Iterator_next c l.
Proof.
  revert c. induction l as [|x l IH]; intros c Hc; cbn [produces];
    unfold Iterator_next.
  - destruct (yields_nil c Hc) as [Hr _].
    exists finished, (advance c). split; [|reflexivity].
    unfold advance. by rewrite (surjective_pairing (cursor_next c)), Hr.
  - destruct (yields_cons c x l Hc) as [Hr Hc'].
    exists (advance c). split; [|by apply IH].
    unfold advance. by rewrite (surjective_pairing (cursor_next c)), Hr.
Qed.

Lemma toArray_produces {St : Type} (next : St -> outcome (iterResult * St))
    l : forall s fuel,
  produces next s l -> (length l < fuel)%nat ->
  exists s', toArray next fuel s = Ok (l, s').
Proof.
  induction l as [|x l IH]; intros s fuel Hs Hf;
    (destruct fuel as [|f]; [cbn in Hf; lia|]); rewrite toArray_S;
    cbn [produces] in Hs.
  - destruct Hs as (r & s' & -> & Hd). cbn [bind]. rewrite Hd. by eexists.
  - destruct Hs as (s' & -> & Hs'). cbn [bind done value].
    destruct (IH s' f Hs') as (s'' & ->); [cbn in Hf; lia|]. by eexists.
Qed.

(** ** [forEach], [each], [collectWith] *)

Lemma forEach_produces {St W : Type} (next : St -> outcome (iterResult * St))
    (fn : jsvalue -> W -> W) l : forall s w fuel,
  produces next s l -> (length l < fuel)%nat ->
  exists s', forEach next fuel fn w s
             = Ok (fold_left (fun w v => fn v w) l w, s').
Proof.
  induction l as [|x l IH]; intros s w fuel Hs Hf;
    (destruct fuel as [|f]; [cbn in Hf; lia|]); cbn [length forEach produces] in *.
  - destruct Hs as (r & s' & -> & Hd). cbn [bind]. rewrite Hd. by eexists.
  - destruct Hs as (s' & -> & Hs'). cbn [bind done value fold_left].
    apply IH; [exact Hs' | lia].
Qed.

(** [forEach] (and [each], which calls it) runs the callback once per
    produced value, in order; [collectWith] folds the collector over the
    values into its target.  This holds for the [next()] of any adaptor. *)
Theorem forEach_in_order {St W : Type}
    (next : St -> outcome (iterResult * St)) (s : St) (l : list jsvalue)
    (fuel : nat) :
  produces next s l -> (length l < fuel)%nat ->
  (forall (fn : jsvalue -> W -> W) (w : W),
     exists s',
       forEach next fuel fn w s = Ok (fold_left (fun w v => fn v w) l w, s')
       /\ each next fuel fn w s = forEach next fuel fn w s)
  /\ (forall (collector : W -> jsvalue -> W) (obj : W),
        exists s',
          collectWith next fuel obj collector s
          = Ok (fold_left collector l obj, s')).
Proof.
  intros Hs Hf. split.
  - intros fn w.
    destruct (forEach_produces next fn l s w fuel Hs Hf) as (s' & E).
    exists s'. by split.
  - intros collector obj. unfold collectWith.
    apply (forEach_produces next (fun element o => collector o element));
      assumption.
Qed.

Lemma forEach_in_order_witness :
  exists s',
    collectWith MapIterator_next 3 []
      (fun (obj : list jsvalue) v => v :: obj)
      (MapIterator_new (array_iterator [VNum 1; VNum 2]) (fun _ => VNull))
    = Ok ([VNull; VNull], s').
Proof.
  apply (proj2 (forEach_in_order (W := list jsvalue) MapIterator_next
                  (MapIterator_new (array_iterator [VNum 1; VNum 2])
                     (fun _ => VNull))
                  [VNull; VNull] 3%nat
                  ltac:(cbn; eexists; split; [reflexivity|];
                        eexists; split; [reflexivity|];
                        eexists _, _; split; reflexivity)
                  ltac:(cbn; lia))).
Defined.

(** ** [every], [some], [find] *)

Lemma every_produces {St : Type} (next : St -> outcome (iterResult * St))
    predicate l : forall s fuel,
  produces next s l -> (length l < fuel)%nat ->
  exists s', every next fuel predicate s = Ok (forallb predicate l, s').
Proof.
  induction l as [|x l IH]; intros s fuel Hs Hf;
    (destruct fuel as [|f]; [cbn in Hf; lia|]);
    cbn [length every produces forallb] in *.
  - destruct Hs as (r & s' & -> & Hd). cbn [bind]. rewrite Hd. by eexists.
  - destruct Hs as (s' & -> & Hs'). cbn [bind done value].
    destruct (predicate x); cbn [negb andb]; [|by eexists].
    apply IH; [exact Hs' | lia].
Qed.

Lemma every_stops {St : Type} (next : St -> outcome (iterResult * St))
    predicate pre x rest : forall s fuel,
  produces next s (pre ++ x :: rest) ->
  forallb predicate pre = true -> predicate x = false ->
  (length pre < fuel)%nat ->
  exists s', every next fuel predicate s = Ok (false, s')
             /\ produces next s' rest.
Proof.
  induction pre as [|y pre IH]; intros s fuel Hs Hp Hx Hf;
    (destruct fuel as [|f]; [cbn in Hf; lia|]);
    cbn [length every produces forallb app] in *;
    destruct Hs as (s' & -> & Hs'); cbn [bind done value].
  - rewrite Hx. cbn [negb]. by exists s'.
  - apply andb_prop in Hp as [Hy Hp]. rewrite Hy. cbn [negb].
    apply IH; [exact Hs' | exact Hp | exact Hx | lia].
Qed.

Lemma some_produces {St : Type} (next : St -> outcome (iterResult * St))
    predicate l : forall s fuel,
  produces next s l -> (length l < fuel)%nat ->
  exists s', some next fuel predicate s = Ok (existsb predicate l, s').
Proof.
  induction l as [|x l IH]; intros s fuel Hs Hf;
    (destruct fuel as [|f]; [cbn in Hf; lia|]);
    cbn [length some produces existsb] in *.
  - destruct Hs as (r & s' & -> & Hd). cbn [bind]. rewrite Hd. by eexists.
  - destruct Hs as (s' & -> & Hs'). cbn [bind done value].
    destruct (predicate x); cbn [orb]; [by eexists|].
    apply IH; [exact Hs' | lia].
Qed.

Lemma find_produces {St : Type} (next : St -> outcome (iterResult * St))
    predicate l : forall s fuel,
  produces next s l -> (length l < fuel)%nat ->
  exists s', find next fuel predicate s
             = Ok (match List.find predicate l with
                   | Some v => v
                   | None => VUndefined
                   end, s').
Proof.
  induction l as [|x l IH]; intros s fuel Hs Hf;
    (destruct fuel as [|f]; [cbn in Hf; lia|]);
    cbn [length find produces List.find] in *.
  - destruct Hs as (r & s' & -> & Hd). cbn [bind]. rewrite Hd. by eexists.
  - destruct Hs as (s' & -> & Hs'). cbn [bind done value].
    destruct (predicate x); [by eexists|].
    apply IH; [exact Hs' | lia].
Qed.

(** The first value that satisfies the predicate ends both [some] and
    [find]; the values after it are still to be produced. *)
Lemma find_stops {St : Type} (next : St -> outcome (iterResult * St))
    predicate pre x rest : forall s fuel,
  produces next s (pre ++ x :: rest) ->
  existsb predicate pre = false -> predicate x = true ->
  (length pre < fuel)%nat ->
  exists s', find next fuel predicate s = Ok (x, s')
             /\ some next fuel predicate s = Ok (true, s')
             /\ produces next s' rest.
Proof.
  induction pre as [|y pre IH]; intros s fuel Hs Hp Hx Hf;
    (destruct fuel as [|f]; [cbn in Hf; lia|]);
    cbn [length find some produces existsb app] in *;
    destruct Hs as (s' & -> & Hs'); cbn [bind done value].
  - rewrite Hx. by exists s'.
  - apply orb_false_elim in Hp as [Hy Hp]. rewrite Hy.
    apply IH; [exact Hs' | exact Hp | exact Hx | lia].
Qed.

(** [every] returns whether all produced values satisfy the predicate, and
    stops at the first one that does not: the values after it are still to
    be produced.  This holds for the [next()] of any adaptor. *)
Theorem every_short_circuits {St : Type}
    (next : St -> outcome (iterResult * St)) (predicate : jsvalue -> bool)
    (s : St) :
  (forall l fuel,
     produces next s l -> (length l < fuel)%nat ->
     exists s', every next fuel predicate s = Ok (forallb predicate l, s'))
  /\ (forall pre x rest fuel,
        produces next s (pre ++ x :: rest) ->
        forallb predicate pre = true -> predicate x = false ->
        (length pre < fuel)%nat ->
        exists s', every next fuel predicate s = Ok (false, s')
                   /\ produces next s' rest).
Proof.
  split.
  - intros l fuel. apply every_produces.
  - intros pre x rest fuel. apply every_stops.
Qed.

Lemma every_short_circuits_witness :
  exists s',
    every Iterator_next 2 (fun v => strict_eq v (VNum 1))
      (array_iterator [VNum 1; VNum 2; VNum 3])
    = Ok (false, s')
    /\ produces Iterator_next s' [VNum 3].
Proof.
  apply (proj2 (every_short_circuits Iterator_next
                  (fun v => strict_eq v (VNum 1))
                  (array_iterator [VNum 1; VNum 2; VNum 3]))
           [VNum 1] (VNum 2) [VNum 3] 2%nat).
  - apply yields_produces, array_iterator_yields.
  - reflexivity.
  - reflexivity.
  - cbn. lia.
Defined.

(** [some] returns whether a produced value satisfies the predicate, and
    [find] returns the first such value, or [undefined] when there is none;
    both stop at that value, and the values after it are still to be
    produced.  This holds for the [next()] of any adaptor. *)
Theorem some_find_first_match {St : Type}
    (next : St -> outcome (iterResult * St)) (predicate : jsvalue -> bool)
    (s : St) :
  (forall l fuel,
     produces next s l -> (length l < fuel)%nat ->
     (exists s', some next fuel predicate s = Ok (existsb predicate l, s'))
     /\ (exists s', find next fuel predicate s
                    = Ok (match List.find predicate l with
                          | Some v => v
                          | None => VUndefined
                          end, s')))
  /\ (forall pre x rest fuel,
        produces next s (pre ++ x :: rest) ->
        existsb predicate pre = false -> predicate x = true ->
        (length pre < fuel)%nat ->
        exists s', find next fuel predicate s = Ok (x, s')
                   /\ some next fuel predicate s = Ok (true, s')
                   /\ produces next s' rest).
Proof.
  split.
  - intros l fuel Hs Hf. split.
    + by apply some_produces.
    + by apply find_produces.
  - intros pre x rest fuel. apply find_stops.
Qed.

Lemma some_find_first_match_witness :
  exists s',
    find Iterator_next 2 (fun v => strict_eq v (VNum 2))
      (array_iterator [VNum 1; VNum 2; VNum 3])
    = Ok (VNum 2, s')
    /\ some Iterator_next 2 (fun v => strict_eq v (VNum 2))
         (array_iterator [VNum 1; VNum 2; VNum 3])
       = Ok (true, s')
    /\ produces Iterator_next s' [VNum 3].
Proof.
  apply (proj2 (some_find_first_match Iterator_next
                  (fun v => strict_eq v (VNum 2))
                  (array_iterator [VNum 1; VNum 2; VNum 3]))
           [VNum 1] (VNum 2) [VNum 3] 2%nat).
  - apply yields_produces, array_iterator_yields.
  - reflexivity.
  - reflexivity.
  - cbn. lia.
Defined.

(** ** [reduce] as a fold *)

Lemma reduce_loop_produces {St : Type}
    (next : St -> outcome (iterResult * St)) reducer l : forall s result fuel,
  produces next s l -> (length l < fuel)%nat ->
  exists s', reduce_loop next fuel reducer result s
             = Ok (fold_left reducer l result, s').
Proof.
  induction l as [|x l IH]; intros s result fuel Hs Hf;
    (destruct fuel as [|f]; [cbn in Hf; lia|]); rewrite reduce_loop_S;
    cbn [produces length] in *.
  - destruct Hs as (r & s' & -> & Hd). cbn [bind]. rewrite Hd. by eexists.
  - destruct Hs as (s' & -> & Hs'). cbn [bind done value fold_left].
    apply IH; [exact Hs' | lia].
Qed.

(** [reduce] with an initial value other than [undefined] is the left fold
    of the reducer over the produced values from that value; [reduce]
    without one is the left fold over the values after the first, from the
    first.  This holds for the [next()] of any adaptor. *)
Theorem reduce_is_fold_left {St : Type}
    (next : St -> outcome (iterResult * St))
    (reducer : jsvalue -> jsvalue -> jsvalue) (s : St) (l : list jsvalue)
    (fuel : nat) :
  produces next s l -> (length l < fuel)%nat ->
  (forall init, init <> VUndefined ->
     exists s', reduce next fuel reducer (Some init) s
                = Ok (fold_left reducer l init, s'))
  /\ (forall x l', l = x :: l' ->
        exists s', reduce next fuel reducer None s
                   = Ok (fold_left reducer l' x, s')).
Proof.
  intros Hs Hf. split.
  - intros init Hi. apply strict_eq_undefined in Hi.
    unfold reduce. cbn beta iota zeta. rewrite Hi. cbn [bind].
    by apply reduce_loop_produces.
  - intros x l' ->. cbn [produces length] in *.
    destruct Hs as (s' & E & Hs').
    unfold reduce. cbn beta iota zeta. cbn [strict_eq]. rewrite E.
    cbn [bind done value].
    apply reduce_loop_produces; [exact Hs' | lia].
Qed.

Lemma reduce_is_fold_left_witness :
  (exists s',
     reduce Iterator_next 3 (fun acc v => VArr 0 [acc; v]) (Some VNull)
       (array_iterator [VNum 1; VNum 2])
     = Ok (VArr 0 [VArr 0 [VNull; VNum 1]; VNum 2], s'))
  /\ exists s',
       reduce Iterator_next 3 (fun acc v => VArr 0 [acc; v]) None
         (array_iterator [VNum 1; VNum 2])
       = Ok (VArr 0 [VNum 1; VNum 2], s').
Proof.
  destruct (reduce_is_fold_left Iterator_next (fun acc v => VArr 0 [acc; v])
              (array_iterator [VNum 1; VNum 2]) [VNum 1; VNum 2] 3%nat
              (yields_produces _ _ (array_iterator_yields _))
              ltac:(cbn; lia)) as [H1 H2].
  split.
  - apply H1. discriminate.
  - apply (H2 (VNum 1) [VNum 2]). reflexivity.
Defined.

(** ** [someCount] counts matches *)

Lemma someCount_loop_produces {St : Type}
    (next : St -> outcome (iterResult * St)) predicate n l :
  forall s k fuel,
    produces next s l -> (length l < fuel)%nat ->
    exists s',
      someCount_loop next fuel predicate (VNum n) k s
      = Ok ((k <? n)
            && (n - k <=? Z.of_nat (length (List.filter predicate l))), s').
Proof.
  induction l as [|x l IH]; intros s k fuel Hs Hf;
    (destruct fuel as [|f]; [cbn in Hf; lia|]); rewrite someCount_loop_S;
    cbn [produces length List.filter] in *.
  - destruct Hs as (r & s' & -> & Hd). cbn [bind]. rewrite Hd.
    exists s'. do 2 f_equal.
    destruct (Z.ltb_spec k n); [|reflexivity].
    destruct (Z.leb_spec (n - k) (Z.of_nat 0)); [lia | reflexivity].
  - destruct Hs as (s' & -> & Hs'). cbn [bind done value].
    destruct (predicate x); [|apply IH; [exact Hs' | lia]].
    cbn [strict_eq length]. destruct (Z.eqb_spec (k + 1) n) as [E|E].
    + exists s'. do 2 f_equal.
      destruct (Z.ltb_spec k n); [|lia].
      destruct (Z.leb_spec (n - k)
                  (Z.of_nat (S (length (List.filter predicate l)))));
        [reflexivity | lia].
    + destruct (IH s' (k + 1) f Hs') as (s'' & ->); [lia|].
      exists s''. do 2 f_equal.
      destruct (Z.ltb_spec k n), (Z.ltb_spec (k + 1) n);
        cbn [andb]; try lia; try reflexivity.
      destruct (Z.leb_spec (n - (k + 1))
                  (Z.of_nat (length (List.filter predicate l)))),
               (Z.leb_spec (n - k)
                  (Z.of_nat (S (length (List.filter predicate l)))));
        try lia; reflexivity.
Qed.

Lemma someCount_loop_not_number {St : Type}
    (next : St -> outcome (iterResult * St)) predicate count fuel :
  forall s k s',
    (forall n, count <> VNum n) ->
    someCount_loop next fuel predicate count k s <> Ok (true, s').
Proof.
  induction fuel as [|f IH]; intros s k s' Hc; [discriminate|].
  rewrite someCount_loop_S. destruct (next s) as [[r s1]|e|]; cbn [bind];
    try discriminate.
  destruct (done r); [discriminate|].
  destruct (predicate (value r)); [|by apply IH].
  destruct count; cbn [strict_eq]; try by apply IH.
  by destruct (Hc n).
Qed.

(** [someCount(predicate, n)] with a number [n] returns [true] exactly when
    [n] is at least 1 and at least [n] of the produced values satisfy the
    predicate; with a count that is not a number it never returns [true].
    This holds for the [next()] of any adaptor. *)
Theorem someCount_at_least {St : Type}
    (next : St -> outcome (iterResult * St)) (predicate : jsvalue -> bool)
    (s : St) :
  (forall l n fuel,
     produces next s l -> (length l < fuel)%nat ->
     exists s',
       someCount next fuel predicate (VNum n) s
       = Ok ((0 <? n)
             && (n <=? Z.of_nat (length (List.filter predicate l))), s'))
  /\ (forall count fuel s',
        (forall n, count <> VNum n) ->
        someCount next fuel predicate count s <> Ok (true, s')).
Proof.
  split.
  - intros l n fuel Hs Hf. unfold someCount.
    destruct (someCount_loop_produces next predicate n l s 0 fuel Hs Hf)
      as (s' & E).
    exists s'. by rewrite E, Z.sub_0_r.
  - intros count fuel s' Hc. by apply someCount_loop_not_number.
Qed.

Lemma someCount_at_least_witness :
  exists s',
    someCount Iterator_next 4 (fun v => negb (strict_eq v (VNum 2))) (VNum 2)
      (array_iterator [VNum 1; VNum 2; VNum 3])
    = Ok (true, s').
Proof.
  apply (proj1 (someCount_at_least Iterator_next
                  (fun v => negb (strict_eq v (VNum 2)))
                  (array_iterator [VNum 1; VNum 2; VNum 3]))
           [VNum 1; VNum 2; VNum 3] 2 4%nat).
  - apply yields_produces, array_iterator_yields.
  - cbn. lia.
Defined.

(** ** [skip] *)

Lemma skip_loop_Iterator k : forall c amount i fuel,
  Z.to_nat (amount - i) = k -> (k < fuel)%nat ->
  skip_loop Iterator_next fuel amount i c
  = Ok (Cursor (script c) (pos c + k)).
Proof.
  induction k as [|k IH]; intros c amount i fuel Hk Hf;
    (destruct fuel as [|f]; [lia|]); cbn [skip_loop];
    destruct (Z.ltb_spec i amount) as [Hlt|Hge]; try lia.
  - destruct c as [sc p]. cbn. by rewrite Nat.add_0_r.
  - unfold Iterator_next. cbn [bind cursor_next].
    rewrite (IH _ amount (i + 1) f) by lia. cbn [script pos].
    do 2 f_equal. lia.
Qed.

Lemma yields_drop c l k :
  yields c l -> yields (Cursor (script c) (pos c + k)) (drop k l).
Proof.
  intros Hc i. cbn [script pos]. rewrite <- Nat.add_assoc, Hc.
  unfold array_script. by rewrite lookup_drop.
Qed.

(** [skip(n)] calls [next()] exactly [n] times (never for a negative [n])
    and returns the receiver: a sequence with the values [l] left has
    [l] without its first [n] values left, and skipping past the end is not
    an error and leaves an exhausted sequence. *)
Theorem skip_drops (c : cursor) (l : list jsvalue) (n : Z) (fuel : nat) :
  yields c l -> (Z.to_nat n < fuel)%nat ->
  exists c',
    skip Iterator_next fuel n c = Ok c'
    /\ pos c' = (pos c + Z.to_nat n)%nat
    /\ yields c' (drop (Z.to_nat n) l)
    /\ forall fuel', (length (drop (Z.to_nat n) l) < fuel')%nat ->
         exists c'', toArray Iterator_next fuel' c'
                     = Ok (drop (Z.to_nat n) l, c'').
Proof.
  intros Hc Hf. unfold skip.
  rewrite (skip_loop_Iterator (Z.to_nat n)) by (rewrite ?Z.sub_0_r; done).
  eexists. split; [reflexivity|]. split; [reflexivity|].
  pose proof (yields_drop c l (Z.to_nat n) Hc) as Hd.
  split; [exact Hd|].
  intros fuel' Hf'.
  destruct (toArray_Iterator _ _ fuel' Hd Hf') as (c'' & E & _).
  by exists c''.
Qed.

Lemma skip_drops_witness :
  exists c',
    skip Iterator_next 6 5 (array_iterator [VNum 1; VNum 2]) = Ok c'
    /\ pos c' = 5%nat
    /\ exists c'', toArray Iterator_next 1 c' = Ok ([], c'').
Proof.
  destruct (skip_drops (array_iterator [VNum 1; VNum 2]) [VNum 1; VNum 2]
              5 6%nat (array_iterator_yields _) ltac:(cbn; lia))
    as (c' & E & Hp & _ & Ht).
  exists c'. split; [exact E|]. split; [exact Hp|].
  apply Ht. vm_compute. lia.
Defined.

(** * Further properties of the adaptors *)

(** ** [map] *)

Lemma MapIterator_produces mapper l : forall c,
  yields c l -> produces MapIterator_next (MkMap c mapper) (mapper <$> l).
Proof.
  induction l as [|x l IH]; intros c Hc;
    cbn [produces fmap list_fmap]; unfold MapIterator_next, Iterator_next;
    cbn [bind map_base map_mapper].
  - destruct (yields_nil c Hc) as [Hr _].
    rewrite (surjective_pairing (cursor_next c)), Hr.
    eexists _, _. split; reflexivity.
  - destruct (yields_cons c x l Hc) as [Hr Hc'].
    rewrite (surjective_pairing (cursor_next c)), Hr.
    eexists. split; [reflexivity|]. by apply IH.
Qed.

(** [map(f)] over a sequence with the values [l] produces [f] of each value
    of [l], in order and as many; every [next()] pulls exactly once from the
    upstream, and [f] is not called on the exhaustion signal. *)
Theorem map_elementwise (mapper : jsvalue -> jsvalue) (c : cursor)
    (l : list jsvalue) (fuel : nat) :
  yields c l -> (length l < fuel)%nat ->
  (exists it',
     toArray MapIterator_next fuel (MapIterator_new c mapper)
     = Ok (mapper <$> l, it'))
  /\ length (mapper <$> l) = length l
  /\ forall it, exists r,
       MapIterator_next it = Ok (r, MkMap (advance (map_base it)) (map_mapper it))
       /\ (done r = true -> value r = VUndefined).
Proof.
  intros Hc Hf. split; [|split].
  - apply toArray_produces; [by apply MapIterator_produces|].
    by rewrite length_fmap.
  - apply length_fmap.
  - intros it. unfold MapIterator_next, Iterator_next, advance. cbn [bind].
    destruct (cursor_next (map_base it)) as [r b]. cbn [snd].
    eexists. split; [reflexivity|]. cbn [done value]. by intros ->.
Qed.

Lemma map_elementwise_witness :
  exists it',
    toArray MapIterator_next 3
      (MapIterator_new (array_iterator [VNum 1; VNum 2])
         (fun v => VArr 0 [v]))
    = Ok ([VArr 0 [VNum 1]; VArr 0 [VNum 2]], it').
Proof.
  apply (proj1 (map_elementwise (fun v => VArr 0 [v])
                  (array_iterator [VNum 1; VNum 2]) [VNum 1; VNum 2] 3%nat
                  (array_iterator_yields _) ltac:(cbn; lia))).
Defined.

(** ** [filter] *)

(** One [next()] of [filter] pulls up to and including the first value that
    satisfies the predicate. *)
Lemma FilterIterator_next_first predicate l : forall c F,
  yields c l -> (length l < F)%nat ->
  exists c' l',
    FilterIterator_next F (MkFilter c predicate)
    = Ok (array_script (List.filter predicate l) 0, MkFilter c' predicate)
    /\ yields c' l'
    /\ List.filter predicate l' = tail (List.filter predicate l)
    /\ (length l' <= length l)%nat.
Proof.
  induction l as [|x l IH]; intros c F Hc HF;
    (destruct F as [|F]; [cbn in HF; lia|]);
    cbn [FilterIterator_next length List.filter] in *;
    unfold Iterator_next; cbn [bind filter_base filter_predicate].
  - destruct (yields_nil c Hc) as [Hr Hc'].
    rewrite (surjective_pairing (cursor_next c)), Hr. cbn [done finished].
    exists (snd (cursor_next c)), []. by repeat split.
  - destruct (yields_cons c x l Hc) as [Hr Hc'].
    rewrite (surjective_pairing (cursor_next c)), Hr. cbn [done value].
    destruct (predicate x).
    + exists (snd (cursor_next c)), l. repeat split; [done | lia].
    + destruct (IH (snd (cursor_next c)) F Hc') as (c' & l' & E & H1 & H2 & H3);
        [lia|].
      exists c', l'. repeat split; [done | done | done | lia].
Qed.

Lemma FilterIterator_produces predicate F out : forall l c,
  List.filter predicate l = out -> yields c l -> (length l < F)%nat ->
  produces (FilterIterator_next F) (MkFilter c predicate) out.
Proof.
  induction out as [|y out IH]; intros l c Ho Hc HF;
    destruct (FilterIterator_next_first predicate l c F Hc HF)
      as (c' & l' & E & Hc' & Hl' & Hlen);
    rewrite Ho in E, Hl'; cbn [produces].
  - eexists _, _. split; [exact E | reflexivity].
  - eexists. split; [exact E|]. apply (IH l'); [done | done | lia].
Qed.

(** [filter(p)] over a sequence with the values [l] produces exactly the
    values of [l] that satisfy [p], in their original order. *)
Theorem filter_subsequence (predicate : jsvalue -> bool) (c : cursor)
    (l : list jsvalue) (F fuel : nat) :
  yields c l -> (length l < F)%nat ->
  (length (List.filter predicate l) < fuel)%nat ->
  exists it',
    toArray (FilterIterator_next F) fuel (FilterIterator_new c predicate)
    = Ok (List.filter predicate l, it').
Proof.
  intros Hc HF Hf. apply toArray_produces; [|exact Hf].
  by apply (FilterIterator_produces predicate F _ l).
Qed.

Lemma filter_subsequence_witness :
  exists it',
    toArray (FilterIterator_next 4) 3
      (FilterIterator_new (array_iterator [VNum 1; VNull; VNum 3])
         is_number)
    = Ok ([VNum 1; VNum 3], it').
Proof.
  apply (filter_subsequence is_number
           (array_iterator [VNum 1; VNull; VNum 3])
           [VNum 1; VNull; VNum 3] 4%nat 3%nat (array_iterator_yields _)).
  - cbn. lia.
  - cbn. lia.
Defined.

(** ** [take] and [takeWhile] over sequences that need not end *)

Lemma starts_with_cons c x l :
  starts_with c (x :: l) ->
  fst (cursor_next c) = IterResult false x /\ starts_with (advance c) l.
Proof.
  intros H. split.
  - specialize (H 0%nat x eq_refl). by rewrite Nat.add_0_r in H.
  - intros i y Hy. specialize (H (S i) y Hy). cbn [advance cursor_next snd
      script pos]. rewrite <- H. f_equal. lia.
Qed.

Lemma yields_starts_with c l : yields c l -> starts_with c l.
Proof. intros H i x Hx. rewrite H. unfold array_script. by rewrite Hx. Qed.

Lemma toArray_TakeIterator_prefix l : forall c i fuel,
  starts_with c l -> (length l < fuel)%nat ->
  toArray TakeIterator_next fuel (MkTake c (i + Z.of_nat (length l)) i)
  = Ok (l, MkTake (Cursor (script c) (pos c + length l))
             (i + Z.of_nat (length l)) (i + Z.of_nat (length l) + 1)).
Proof.
  induction l as [|x l IH]; intros c i fuel Hc Hf;
    (destruct fuel as [|f]; [cbn in Hf; lia|]); rewrite toArray_S.
  - rewrite TakeIterator_next_stops by (cbn [length]; lia).
    cbn [bind done finished length]. destruct c as [sc p]. cbn [script pos].
    rewrite Nat.add_0_r. do 3 f_equal; lia.
  - rewrite TakeIterator_next_delegates by (cbn [length]; lia).
    destruct (starts_with_cons c x l Hc) as [-> Hc'].
    cbn [bind done value].
    replace (i + Z.of_nat (length (x :: l)))
      with (i + 1 + Z.of_nat (length l)) by (cbn [length]; lia).
    fold (advance c). rewrite IH by (done || (cbn [length] in Hf; lia)).
    cbn [bind advance cursor_next snd script pos length].
    by replace (S (pos c) + length l)%nat with (pos c + S (length l))%nat
      by lia.
Qed.

(** [take(n)] over a sequence that produces at least [n] values, endless or
    not, produces the first [n] of them with exactly [n] pulls from the
    upstream: the call of [next()] that reports exhaustion does not pull. *)
Theorem take_pulls_only_amount (c : cursor) (l : list jsvalue) (fuel : nat) :
  starts_with c l -> (length l < fuel)%nat ->
  exists it',
    toArray TakeIterator_next fuel
      (TakeIterator_new c (Z.of_nat (length l)))
    = Ok (l, it')
    /\ take_base it' = Cursor (script c) (pos c + length l).
Proof.
  intros Hc Hf. unfold TakeIterator_new.
  pose proof (toArray_TakeIterator_prefix l c 0 fuel Hc Hf) as E.
  rewrite Z.add_0_l in E. rewrite E. eexists. split; reflexivity.
Qed.

Lemma take_pulls_only_amount_witness :
  exists it',
    toArray TakeIterator_next 3
      (TakeIterator_new (Cursor (fun i => IterResult false (VNum 7)) 0) 2)
    = Ok ([VNum 7; VNum 7], it')
    /\ pos (take_base it') = 2%nat.
Proof.
  destruct (take_pulls_only_amount
              (Cursor (fun i => IterResult false (VNum 7)) 0)
              [VNum 7; VNum 7] 3%nat) as (it' & E & Hb).
  - intros i x Hx. destruct i as [|[|i]]; cbn in Hx; by inversion Hx.
  - cbn. lia.
  - exists it'. split; [exact E|]. by rewrite Hb.
Defined.

Lemma TakeWhileIterator_next_active c predicate :
  TakeWhileIterator_next (MkTakeWhile c predicate false)
  = if negb (done (fst (cursor_next c)))
       && predicate (value (fst (cursor_next c)))
    then Ok (fst (cursor_next c), MkTakeWhile (advance c) predicate false)
    else Ok (finished, MkTakeWhile (advance c) predicate true).
Proof. reflexivity. Qed.

Lemma toArray_TakeWhileIterator_prefix predicate pre : forall c fuel,
  starts_with c pre -> forallb predicate pre = true ->
  negb (done (script c (pos c + length pre)))
  && predicate (value (script c (pos c + length pre))) = false ->
  (length pre < fuel)%nat ->
  toArray TakeWhileIterator_next fuel (MkTakeWhile c predicate false)
  = Ok (pre, MkTakeWhile (Cursor (script c) (pos c + length pre + 1))
               predicate true).
Proof.
  induction pre as [|x pre IH]; intros c fuel Hc Hp Hstop Hf;
    (destruct fuel as [|f]; [cbn in Hf; lia|]);
    rewrite toArray_S, TakeWhileIterator_next_active; cbn [length] in *.
  - rewrite Nat.add_0_r in Hstop. cbn [cursor_next fst]. rewrite Hstop.
    cbn [bind done finished advance cursor_next snd].
    by replace (pos c + 0 + 1)%nat with (S (pos c)) by lia.
  - destruct (starts_with_cons c x pre Hc) as [-> Hc'].
    apply andb_prop in Hp as [Hx Hp]. cbn [done value negb andb].
    rewrite Hx. cbn [bind done value].
    rewrite IH; [| done | done | | lia].
    + cbn [bind advance cursor_next snd script pos].
      by replace (S (pos c) + length pre + 1)%nat
        with (pos c + S (length pre) + 1)%nat by lia.
    + cbn [advance cursor_next snd script pos].
      by replace (S (pos c) + length pre)%nat
        with (pos c + S (length pre))%nat by lia.
Qed.

(** [takeWhile(p)] produces the values before the first one that fails [p]
    (or before the exhaustion of the upstream), over an endless upstream
    too; that first failing value is pulled from the upstream and dropped,
    so the upstream is left one position past it. *)
Theorem takeWhile_longest_prefix (predicate : jsvalue -> bool) (c : cursor)
    (pre : list jsvalue) (fuel : nat) :
  starts_with c pre -> forallb predicate pre = true ->
  negb (done (script c (pos c + length pre)))
  && predicate (value (script c (pos c + length pre))) = false ->
  (length pre < fuel)%nat ->
  exists it',
    toArray TakeWhileIterator_next fuel (TakeWhileIterator_new c predicate)
    = Ok (pre, it')
    /\ takeWhile_base it' = Cursor (script c) (pos c + length pre + 1)
    /\ takeWhile_done it' = true.
Proof.
  intros Hc Hp Hstop Hf. unfold TakeWhileIterator_new.
  rewrite (toArray_TakeWhileIterator_prefix predicate pre c fuel) by done.
  eexists. repeat split.
Qed.

Lemma takeWhile_longest_prefix_witness :
  exists it',
    toArray TakeWhileIterator_next 3
      (TakeWhileIterator_new
         (array_iterator [VNum 1; VNum 2; VNull; VNum 4]) is_number)
    = Ok ([VNum 1; VNum 2], it')
    /\ pos (takeWhile_base it') = 3%nat.
Proof.
  destruct (takeWhile_longest_prefix is_number
              (array_iterator [VNum 1; VNum 2; VNull; VNum 4])
              [VNum 1; VNum 2] 3%nat) as (it' & E & Hb & _).
  - intros i x Hx. destruct i as [|[|i]]; cbn in Hx; by inversion Hx.
  - reflexivity.
  - reflexivity.
  - cbn. lia.
  - exists it'. split; [exact E|]. by rewrite Hb.
Defined.

(** ** [flatMap] *)

Lemma flatMap_next mapper k : forall st out m,
  flatMap_state mapper st out m -> (m <= k)%nat ->
  exists st' m',
    FlatMapIterator_next k st = Ok (array_script out 0, st')
    /\ flatMap_state mapper st' (tail out) m' /\ (m' <= m)%nat.
Proof.
  induction k as [|k IH]; intros st out m Hst Hk.
  { inversion Hst; subst; lia. }
  inversion Hst as [c l Hc Hl | c ci l li Hc Hl Hci]; subst;
    rewrite FlatMapIterator_next_S;
    cbn [flatMap_mapper flatMap_base currentIterator bind];
    unfold Iterator_next at 1; cbn [bind].
  - destruct l as [|x l].
    + destruct (yields_nil c Hc) as [Hr Hc'].
      rewrite (surjective_pairing (cursor_next c)), Hr. cbn [done finished].
      eexists _, (0 + 1)%nat. split; [reflexivity|].
      split; [by apply (FlatMap_between mapper _ []) | cbn; lia].
    + destruct (yields_cons c x l Hc) as [Hr Hc'].
      rewrite (surjective_pairing (cursor_next c)), Hr. cbn [done value].
      apply Forall_cons in Hl as [Hx Hl].
      cbn [fmap list_fmap]. unfold flatten_one. cbn [fmap list_fmap concat].
      fold (flatten_one (mapper <$> l)).
      destruct (mapper x) as [| |b|n| |ref items]; try discriminate Hx;
        cbn [iterator_method toIterator bind].
      1-3: eexists _, (length l + 1)%nat; (split; [reflexivity|]);
        split; [by apply FlatMap_between | cbn [length]; lia].
      unfold Iterator_next. cbn [bind].
      destruct items as [|y items].
      * cbn [array_iterator cursor_next script pos array_script lookup
               list_lookup finished done].
        destruct (IH _ _ _ (FlatMap_between mapper _ l Hc' Hl))
          as (st' & m' & E & Hst' & Hm'); [cbn [length] in Hk; lia|].
        exists st', m'. split; [exact E|]. split; [exact Hst'|].
        cbn [length]. lia.
      * cbn [array_iterator cursor_next script pos array_script lookup
               list_lookup done].
        eexists _, (length l + 2)%nat. split; [reflexivity|]. split.
        -- apply (FlatMap_inside mapper _ (advance (array_iterator (y :: items)))
                    l items Hc' Hl).
           apply (yields_cons _ y), array_iterator_yields.
        -- cbn [length]. lia.
  - destruct li as [|y li].
    + destruct (yields_nil ci Hci) as [Hr _].
      rewrite (surjective_pairing (cursor_next ci)), Hr. cbn [done finished].
      destruct (IH _ _ _ (FlatMap_between mapper c l Hc Hl))
        as (st' & m' & E & Hst' & Hm'); [lia|].
      exists st', m'. split; [exact E|]. split; [exact Hst' | lia].
    + destruct (yields_cons ci y li Hci) as [Hr Hci'].
      rewrite (surjective_pairing (cursor_next ci)), Hr. cbn [done].
      eexists _, (length l + 2)%nat. split; [reflexivity|].
      split; [by apply FlatMap_inside | lia].
Qed.

Lemma toArray_flatMap mapper F out : forall st m fuel,
  flatMap_state mapper st out m -> (m <= F)%nat -> (length out < fuel)%nat ->
  exists it', toArray (FlatMapIterator_next F) fuel st = Ok (out, it').
Proof.
  induction out as [|y out IH]; intros st m fuel Hst Hm Hf;
    (destruct fuel as [|f]; [cbn in Hf; lia|]);
    destruct (flatMap_next mapper F st _ m Hst Hm)
      as (st' & m' & E & Hst' & Hm');
    rewrite toArray_S, E; cbn [bind array_script lookup list_lookup done
      value finished].
  - by eexists.
  - destruct (IH st' m' f Hst') as (it' & E'); [lia | cbn in Hf; lia|].
    rewrite E'. by eexists.
Qed.

(** [flatMap(f)] over a sequence with the values [l] produces, for each
    value in order, the items of [f] of it when that is an array, and [f] of
    it itself when it is a number or a boolean; empty arrays contribute
    nothing.  No mapped value may be [undefined] or [null]. *)
Theorem flatMap_maps_then_flattens (mapper : jsvalue -> jsvalue) (c : cursor)
    (l : list jsvalue) (F fuel : nat) :
  yields c l -> Forall (fun x => nullish (mapper x) = false) l ->
  (length l + 1 <= F)%nat ->
  (length (flatten_one (mapper <$> l)) < fuel)%nat ->
  exists it',
    toArray (FlatMapIterator_next F) fuel (FlatMapIterator_new c mapper)
    = Ok (flatten_one (mapper <$> l), it').
Proof.
  intros Hc Hl HF Hf.
  apply (toArray_flatMap mapper F _ _ (length l + 1)); try done.
  by apply FlatMap_between.
Qed.

Lemma flatMap_maps_then_flattens_witness :
  exists it',
    toArray (FlatMapIterator_next 4) 5
      (FlatMapIterator_new (array_iterator [VNum 1; VArr 0 []; VNum 3])
         (fun v => match v with VNum _ => VArr 1 [v; v] | _ => v end))
    = Ok ([VNum 1; VNum 1; VNum 3; VNum 3], it').
Proof.
  apply (flatMap_maps_then_flattens
           (fun v => match v with VNum _ => VArr 1 [v; v] | _ => v end)
           (array_iterator [VNum 1; VArr 0 []; VNum 3])
           [VNum 1; VArr 0 []; VNum 3] 4%nat 5%nat
           (array_iterator_yields _)).
  - repeat constructor.
  - cbn. lia.
  - cbn. lia.
Defined.



(** ** [flat] with any depth *)

Lemma flatten_nil n : flatten n [] = [].
Proof. by destruct n. Qed.

Lemma flatten_S_cons n v l :
  flatten (S n) (v :: l)
  = match v with VArr _ items => flatten n items | _ => [v] end
    ++ flatten (S n) l.
Proof. reflexivity. Qed.

Lemma turns_S_cons n v l :
  turns (S n) (v :: l)
  = (match v with VArr _ items => S (turns n items) | _ => 1 end
     + turns (S n) l)%nat.
Proof.
  cbn [turns fmap list_fmap sum_list sum_list_with]. unfold id. lia.
Qed.

Lemma turns_pos n l : (1 <= turns n l)%nat.
Proof. destruct n; cbn [turns]; lia. Qed.

Lemma frames_turns_pos n frames : (1 <= frames_turns n frames)%nat.
Proof.
  destruct frames as [|fr rest]; cbn [frames_turns]; [lia|].
  pose proof (turns_pos n (snd fr)). lia.
Qed.

Lemma insert_middle {A : Type} (l1 l2 : list A) (x y : A) :
  <[length l1 := y]> (l1 ++ x :: l2) = l1 ++ y :: l2.
Proof.
  induction l1 as [|a l1 IH]; [reflexivity|].
  cbn [app length]. rewrite <- IH. reflexivity.
Qed.

Lemma insert_after_middle {A : Type} (l1 l2 : list A) (x a z : A) :
  <[S (length l1) := z]> (l1 ++ x :: a :: l2) = l1 ++ x :: z :: l2.
Proof.
  induction l1 as [|b l1 IH]; [reflexivity|].
  cbn [app length]. rewrite <- IH. reflexivity.
Qed.

Lemma flat_frames_cons c l rest above :
  flat_frames ((c, l) :: rest) above
  = MkFlat (Z.of_nat (length rest))
      (reverse ((fun fr => Some (fst fr)) <$> rest) ++ Some c :: above).
Proof.
  unfold flat_frames. cbn [fmap list_fmap fst length].
  rewrite reverse_cons, <- app_assoc. f_equal. lia.
Qed.

(** One call of [next()] of [flat]: it returns the first value still to be
    produced, or the exhaustion signal when there is none. *)
Lemma flat_next k : forall frames above,
  frames_ok (length above) frames ->
  (frames_turns (length above) frames <= k)%nat ->
  exists frames' above',
    FlatIterator_next k (flat_frames frames above)
    = Ok (array_script (frames_out (length above) frames) 0,
          flat_frames frames' above')
    /\ frames_ok (length above') frames'
    /\ frames_out (length above') frames'
       = tail (frames_out (length above) frames)
    /\ (frames_turns (length above') frames'
        <= frames_turns (length above) frames)%nat.
Proof.
  induction k as [|k IH]; intros frames above Hok Hk.
  { pose proof (frames_turns_pos (length above) frames). lia. }
  destruct frames as [|[c l] rest].
  { exists [], above. split; [reflexivity|]. by repeat split. }
  cbn [frames_ok frames_out frames_turns fst snd] in *.
  destruct Hok as (Hc & Hsafe & Hrest).
  rewrite flat_frames_cons.
  set (B := reverse ((fun fr => Some (fst fr)) <$> rest)).
  assert (HB : length B = length rest).
  { unfold B. by rewrite length_reverse, length_fmap. }
  rewrite (FlatIterator_next_turn k _ (length rest) c);
    [| reflexivity | cbn [stack]; by apply list_lookup_middle].
  cbn [stack]. rewrite <- HB, insert_middle.
  destruct l as [|v l].
  - destruct (yields_nil c Hc) as [-> _]. cbn [done finished].
    rewrite insert_middle, HB.
    pose proof (turns_pos (length above) []) as Ht.
    destruct (IH rest (None :: above) Hrest) as (fr' & ab' & E & H1 & H2 & H3);
      [cbn [length]; lia|].
    exists fr', ab'. rewrite flatten_nil. cbn [app length] in *.
    unfold flat_frames in E at 1. fold B in E. rewrite E.
    split; [reflexivity|]. split; [exact H1|]. split; [exact H2 | lia].
  - destruct (yields_cons c v l Hc) as [-> Hc']. cbn [done value].
    destruct above as [|a above]; rewrite length_app; cbn [length].
    + replace (S (length B) =? length B + 1)%nat with true
        by (symmetry; apply Nat.eqb_eq; lia).
      cbn [bind]. exists ((advance c, l) :: rest), [].
      rewrite flat_frames_cons. fold B. rewrite HB.
      cbn [length flatten app array_script lookup list_lookup tail
           frames_ok frames_out frames_turns fst snd turns] in *.
      split; [reflexivity|]. split; [done|]. split; [reflexivity | lia].
    + replace (S (length B) =? length B + S (S (length above)))%nat
        with false by (symmetry; apply Nat.eqb_neq; lia).
      cbn [length] in *. cbn [probe_safe] in Hsafe.
      apply Forall_cons in Hsafe as [[Hv Hitems] Hl].
      rewrite flatten_S_cons, turns_S_cons in *.
      destruct v as [| |b|n| |ref items]; try discriminate Hv;
        cbn [iterator_method bind].
      1-3: exists ((advance c, l) :: rest), (a :: above);
        rewrite flat_frames_cons; fold B; rewrite HB;
        cbn [length app array_script lookup list_lookup tail
             frames_ok frames_out frames_turns fst snd];
        (split; [reflexivity|]); (split; [done|]);
        (split; [reflexivity|]); lia.
      rewrite insert_after_middle.
      destruct (IH ((array_iterator items, items) :: (advance c, l) :: rest)
                  above) as (fr' & ab' & E & H1 & H2 & H3).
      { cbn [frames_ok fst snd].
        repeat split; done || apply array_iterator_yields. }
      { cbn [frames_turns fst snd]. lia. }
      exists fr', ab'.
      rewrite flat_frames_cons in E. cbn [fmap list_fmap fst length] in E.
      rewrite reverse_cons, <- app_assoc in E. fold B in E.
      cbn [app] in E. rewrite HB in *. rewrite E.
      cbn [frames_out frames_turns fst snd] in *.
      rewrite <- app_assoc. split; [reflexivity|]. split; [exact H1|].
      split; [exact H2 | lia].
Qed.

Lemma toArray_flat_frames F out : forall frames above fuel,
  frames_out (length above) frames = out ->
  frames_ok (length above) frames ->
  (frames_turns (length above) frames <= F)%nat ->
  (length out < fuel)%nat ->
  exists it',
    toArray (FlatIterator_next F) fuel (flat_frames frames above)
    = Ok (out, it').
Proof.
  induction out as [|y out IH]; intros frames above fuel Ho Hok HF Hf;
    (destruct fuel as [|f]; [cbn in Hf; lia|]);
    destruct (flat_next F frames above Hok HF)
      as (fr' & ab' & E & H1 & H2 & H3);
    rewrite Ho in E, H2; rewrite toArray_S, E;
    cbn [bind array_script lookup list_lookup done value finished tail] in *.
  - by eexists.
  - destruct (IH fr' ab' f H2 H1) as (it' & E'); [lia | cbn in Hf; lia|].
    rewrite E'. by eexists.
Qed.

Lemma toArray_flat_depth c l depth F fuel :
  yields c l -> probe_safe depth l ->
  (turns depth l + 1 <= F)%nat ->
  (length (flatten depth l) < fuel)%nat ->
  exists it',
    toArray (FlatIterator_next F) fuel (FlatIterator_new c depth)
    = Ok (flatten depth l, it').
Proof.
  intros Hc Hsafe HF Hf.
  assert (E : FlatIterator_new c depth
              = flat_frames [(c, l)] (replicate depth None)).
  { unfold FlatIterator_new, flat_frames. by rewrite Nat.add_1_r. }
  rewrite E.
  apply (toArray_flat_frames F); rewrite ?length_replicate;
    cbn [frames_out frames_ok frames_turns fst snd].
  - apply app_nil_r.
  - by repeat split.
  - exact HF.
  - exact Hf.
Qed.

Lemma flat_in_range c depth :
  0 <= depth <= 2 ^ 32 - 2 ->
  flat c (Some depth) = Ok (FlatIterator_new c (Z.to_nat depth)).
Proof.
  intros Hd. unfold flat, new_Array, FlatIterator_new.
  destruct (Z.ltb_spec (depth + 1) 0); [lia|].
  destruct (Z.ltb_spec (2 ^ 32 - 1) (depth + 1)); [lia|].
  cbn [orb bind].
  replace (Z.to_nat (depth + 1)) with (S (Z.to_nat depth)) by lia.
  by rewrite Nat.add_1_r.
Qed.

Lemma flat_out_of_range c depth :
  depth < -1 \/ 2 ^ 32 - 1 <= depth ->
  flat c (Some depth) = Throw InvalidArrayLength.
Proof.
  intros Hd. unfold flat, new_Array.
  destruct (Z.ltb_spec (depth + 1) 0); [reflexivity|].
  destruct (Z.ltb_spec (2 ^ 32 - 1) (depth + 1)); [reflexivity | lia].
Qed.

(** [flat(depth)], for an integer [depth] from 0 to 2^32 - 2, over a
    sequence with the values [l] (booleans, numbers, [undefined], [null] and
    arrays nested from these) produces [l] flattened by [depth] levels:
    arrays nested up to [depth] deep are replaced by their items; arrays
    nested deeper, numbers and booleans are produced as they are.  No value
    above the last level may be [undefined] or [null].  With no argument
    the depth is 1; with a depth below -1, or of 2^32 - 1 or more, [flat]
    throws the RangeError of [new Array(depth + 1)]. *)
Theorem flat_flattens_to_depth (c : cursor) (l : list jsvalue)
    (depth : Z) (F fuel : nat) :
  0 <= depth <= 2 ^ 32 - 2 ->
  yields c l -> probe_safe (Z.to_nat depth) l ->
  (turns (Z.to_nat depth) l + 1 <= F)%nat ->
  (length (flatten (Z.to_nat depth) l) < fuel)%nat ->
  (exists it it',
     flat c (Some depth) = Ok it
     /\ toArray (FlatIterator_next F) fuel it
        = Ok (flatten (Z.to_nat depth) l, it'))
  /\ flat c None = flat c (Some 1)
  /\ forall d, d < -1 \/ 2 ^ 32 - 1 <= d ->
       flat c (Some d) = Throw InvalidArrayLength.
Proof.
  intros Hd Hc Hsafe HF Hf. split; [|split].
  - destruct (toArray_flat_depth c l (Z.to_nat depth) F fuel Hc Hsafe HF Hf)
      as (it' & E).
    exists (FlatIterator_new c (Z.to_nat depth)), it'.
    split; [by apply flat_in_range | exact E].
  - reflexivity.
  - intros d. apply flat_out_of_range.
Qed.

Lemma flat_flattens_to_depth_witness :
  exists it it',
    flat (array_iterator
            [VNum 1; VArr 0 [VNum 2; VArr 1 [VNum 3; VArr 2 [VNull]]];
             VArr 3 []])
      (Some 2)
    = Ok it
    /\ toArray (FlatIterator_next 12) 6 it
       = Ok ([VNum 1; VNum 2; VNum 3; VArr 2 [VNull]], it').
Proof.
  apply (proj1 (flat_flattens_to_depth
           (array_iterator
              [VNum 1; VArr 0 [VNum 2; VArr 1 [VNum 3; VArr 2 [VNull]]];
               VArr 3 []])
           [VNum 1; VArr 0 [VNum 2; VArr 1 [VNum 3; VArr 2 [VNull]]];
            VArr 3 []]
           2 12%nat 6%nat ltac:(lia) (array_iterator_yields _)
           ltac:(cbn; repeat constructor)
           ltac:(vm_compute; lia) ltac:(vm_compute; lia))).
Defined.

(** * Terminal operations over any adaptor *)





(** * Construction of [zip] and [join] *)

Lemma map_toIterator_throws pre : forall bad rest e,
  Forall (fun i => exists c, toIterator i = Ok c) pre ->
  toIterator bad = Throw e ->
  map_toIterator (pre ++ bad :: rest) = Throw e.
Proof.
  induction pre as [|i pre IH]; intros bad rest e Hpre Hbad;
    cbn [app map_toIterator].
  - by rewrite Hbad.
  - apply Forall_cons in Hpre as [[c ->] Hpre]. cbn [bind].
    by rewrite (IH bad rest e).
Qed.

(** [zip] and [join] convert all their arguments when they are called: if
    one of them is not iterable the call throws, with the error of the
    first such argument, whatever the primary sequence holds; a number, a
    boolean or [NaN] gives ['Base is not Iterable'], and [undefined] or
    [null] gives the error of the property read. *)
Theorem zip_join_validate_arguments (base : cursor) (pre rest : list iterable)
    (bad : jsvalue) (fresh : nat) :
  Forall (fun i => exists c, toIterator i = Ok c) pre ->
  (forall ref items, bad <> VArr ref items) ->
  let e := if nullish bad then NullishAccess else NotIterable in
  ZipIterator_new base (pre ++ FromValue bad :: rest) fresh = Throw e
  /\ JoinIterator_new base (pre ++ FromValue bad :: rest) = Throw e.
Proof.
  intros Hpre Hbad e.
  assert (E : toIterator (FromValue bad) = Throw e).
  { subst e. destruct bad; try reflexivity. by destruct (Hbad ref items). }
  unfold ZipIterator_new, JoinIterator_new.
  by rewrite (map_toIterator_throws pre (FromValue bad) rest e).
Qed.

Lemma zip_join_validate_arguments_witness :
  ZipIterator_new (array_iterator [VNum 1])
    [FromValue (VArr 0 [VNum 2]); FromValue VNull; FromValue (VNum 3)] 0
  = Throw NullishAccess
  /\ JoinIterator_new (array_iterator [VNum 1])
       [FromValue (VArr 0 [VNum 2]); FromValue VNull; FromValue (VNum 3)]
     = Throw NullishAccess.
Proof.
  apply (zip_join_validate_arguments (array_iterator [VNum 1])
           [FromValue (VArr 0 [VNum 2])] [FromValue (VNum 3)] VNull 0%nat).
  - repeat constructor. by eexists.
  - discriminate.
Defined.

Lemma includes_numbers_witness :
  exists b c',
    includes Iterator_next 3 VNaN (array_iterator [VNum 1; VNaN]) = Ok (b, c')
    /\ (b = true <->
        exists v, v ∈ [VNum 1; VNaN]
                  /\ (strict_eq v VNaN = true \/ (v = VNaN /\ VNaN = VNaN))).
Proof.
  apply (includes_numbers (array_iterator [VNum 1; VNaN]) [VNum 1; VNaN]
           3%nat VNaN (array_iterator_yields _)).
  - cbn. lia.
  - reflexivity.
  - by repeat constructor.
Defined.
